(** * FocNet: the residual weights and the scale scheduler of [focnet.py]

    A shallow embedding of [src/focnet.py]:
    - [residual_weights_computation], over an abstract scalar type (Python
      floats in the source) and over the exact rationals [Q];
    - [FocNet.__init__] with [build_needs_to_compute], the dictionary being a
      [gmap] from coordinates to coordinates;
    - [FocNet.call], the scheduler loop, as an explicit state machine over
      the per-scale feature store, with the tensor primitives (convolutions,
      pooling, unpooling, concatenation, addition, scaling) as an interface. *)

From Stdlib Require Import ZArith QArith Lia List.
From stdpp Require Import base option list gmap.

Local Open Scope Z_scope.

(** ** Python lists *)

(** [l[i]] with Python's negative indices: [None] stands for IndexError. *)
Definition py_norm (len : nat) (i : Z) : option nat :=
  if 0 <=? i then
    (if i <? Z.of_nat len then Some (Z.to_nat i) else None)
  else
    (if 0 <=? Z.of_nat len + i then Some (Z.to_nat (Z.of_nat len + i)) else None).

Definition py_index {A : Type} (l : list A) (i : Z) : option A :=
  match py_norm (length l) i with
  | Some n => l !! n
  | None => None
  end.

(** [range(start, stop, -1)] *)
Definition py_range_down (start stop : Z) : list Z :=
  map (fun j : nat => start - Z.of_nat j) (seq 0 (Z.to_nat (start - stop))).

(** [enumerate(l)] *)
Definition py_enumerate {A : Type} (l : list A) : list (Z * A) :=
  imap (fun (j : nat) (x : A) => (Z.of_nat j, x)) l.

(** [zip(l, k)] stops at the shorter list *)
Fixpoint py_zip {A B : Type} (l : list A) (k : list B) : list (A * B) :=
  match l, k with
  | x :: l', y :: k' => (x, y) :: py_zip l' k'
  | _, _ => []
  end.

(** ** Scalars *)

(** The arithmetic [residual_weights_computation] uses on [beta]. *)
Class Scalar (R : Type) := {
  of_int : Z -> R;
  sadd : R -> R -> R;
  ssub : R -> R -> R;
  smul : R -> R -> R;
  sdiv : R -> R -> R
}.

#[export] Instance Q_scalar : Scalar Q := {
  of_int := inject_Z;
  sadd := Qplus;
  ssub := Qminus;
  smul := Qmult;
  sdiv := Qdiv
}.

(** ** residual_weights_computation *)

Section ResidualWeights.
Context {R : Type} `{Scalar R}.

(** The factor of line 24: [1 - (1 + beta) / (t - k + 1)]; the divisor is
    at least 2 for every [k] of the loop. *)
Definition decay (t : Z) (beta : R) (k : Z) : R :=
  ssub (of_int 1) (sdiv (sadd (of_int 1) beta) (of_int (t - k + 1))).

(** The body of the [for] loop: [w.append(decay * w[-1])].  [w] is never
    empty, so the default of [List.last] is never used. *)
Definition weights_step (t : Z) (beta : R) (w : list R) (k : Z) : list R :=
  w ++ [smul (decay t beta k) (List.last w beta)].

Definition residual_weights_computation (t : Z) (beta : R) : list R :=
  let w := [beta] in
  let w := fold_left (weights_step t beta) (py_range_down (t - 1) 0) w in
  reverse w.

(** The list [w] of the source after [n] iterations of the loop (used to
    state the loop invariant). *)
Definition weights_after (t : Z) (beta : R) (n : nat) : list R :=
  fold_left (weights_step t beta) (py_range_down (t - 1) (t - 1 - Z.of_nat n)) [beta].
End ResidualWeights.


(** ** Exceptions *)

(** The only exception the modelled code can raise by itself is Python's
    IndexError (out-of-range subscript). *)
Inductive error : Type := IndexError.

Inductive res (A : Type) : Type :=
| Ok (a : A)
| Raise (e : error).
Arguments Ok {A} a.
Arguments Raise {A} e.

#[export] Instance res_ret : MRet res := fun A => @Ok A.
#[export] Instance res_bind : MBind res := fun A B f m =>
  match m with
  | Ok a => f a
  | Raise e => Raise e
  end.

(** A subscript: [None] becomes IndexError. *)
Definition subscript {A : Type} (l : list A) (i : Z) : res A :=
  match py_index l i with
  | Some x => Ok x
  | None => Raise IndexError
  end.

(** [ls[i].append(x)] on a list of lists. *)
Definition append_at {A : Type} (ls : list (list A)) (i : Z) (x : A)
  : res (list (list A)) :=
  match py_norm (length ls) i with
  | Some n => Ok (alter (fun l => l ++ [x]) n ls)
  | None => Raise IndexError
  end.

(** [len(l)] *)
Definition len {A : Type} (l : list A) : Z := Z.of_nat (length l).

(** ** Tensor primitives *)

(** The Keras layers and TensorFlow operations the model is built from.
    A layer of a [FocConvBlock] is named by the position of the block in
    [conv_blocks_per_scale]: every block has parameters of its own.
    The primitives are total functions of an abstract tensor type: the
    scheduler never looks inside a tensor.  What TensorFlow rejects (a shape
    error) is studied on the algebra of shapes below, where an absorbing
    value stands for the exception. *)
Definition block_id : Type := nat * nat.

Class Tensor (T R : Type) := {
  first_conv : T -> T;
  block_conv : block_id -> T -> T;
  block_bn : block_id -> T -> T;
  relu : T -> T;
  pooling : T -> T;
  unpooling : T -> T;
  concat : T -> T -> T;
  tadd : T -> T -> T;
  tscale : R -> T -> T;
  final_conv : T -> T
}.

(** [FocConvBlock.call] *)
Definition FocConvBlock_call {T R : Type} `{Tensor T R} (b : block_id) (inputs : T) : T :=
  let outputs := block_conv b inputs in
  let outputs := block_bn b outputs in
  let outputs := relu outputs in
  outputs.

(** ** The model object *)

Definition coord : Type := Z * Z.

Record FocNet (R : Type) : Type := MkFocNet {
  n_scales : Z;
  n_filters : Z;
  kernel_size : Z;
  n_convs_per_scale : list Z;
  communications_between_scales : list (list (Z * Z));
  beta : R;
  conv_blocks_per_scale : list (list block_id);
  needs_to_compute : gmap coord coord
}.
Arguments MkFocNet {R}.
Arguments n_scales {R}.
Arguments n_filters {R}.
Arguments kernel_size {R}.
Arguments n_convs_per_scale {R}.
Arguments communications_between_scales {R}.
Arguments beta {R}.
Arguments conv_blocks_per_scale {R}.
Arguments needs_to_compute {R}.

(** [self.needs_to_compute.get(node, None)] *)
Definition needs_get {R : Type} (self : FocNet R) (node : coord) : option coord :=
  needs_to_compute self !! node.

Definition DEFAULT_N_CONVS_PER_SCALE : list Z := [5; 11; 11; 7].

Definition DEFAULT_COMMUNICATION_BETWEEN_SCALES : list (list (Z * Z)) :=
  [ [(1, 0); (1, 2); (2, 3); (2, 5); (3, 6); (3, 8); (4, 9); (4, 11)];
    [(1, 0); (1, 2); (4, 3); (4, 5); (7, 6); (7, 8); (10, 9); (10, 11)];
    [(1, 0); (1, 1); (4, 2); (4, 3); (7, 4); (7, 5); (10, 6); (10, 7)] ].

(** *** build_needs_to_compute *)

(** The body of the inner [for]: the loop state is the dictionary and the
    flag [down]. *)
Definition record_pair (i_scale : Z) (acc : gmap coord coord * bool) (p : Z * Z)
  : gmap coord coord * bool :=
  let '(needs, down) := acc in
  let '(i_conv_scale_up, i_conv_scale_down) := p in
  let scale_up_node := (i_scale, i_conv_scale_up) in
  let scale_down_node := (i_scale + 1, i_conv_scale_down) in
  let needs :=
    if down then <[scale_down_node := scale_up_node]> needs
    else <[scale_up_node := scale_down_node]> needs in
  (needs, negb down).

(** The body of the outer [for]: [down] starts at [True] for every scale. *)
Definition record_scale (needs : gmap coord coord) (e : Z * list (Z * Z))
  : gmap coord coord :=
  let '(i_scale, scale_communication) := e in
  fst (fold_left (record_pair i_scale) scale_communication (needs, true)).

Definition build_needs_to_compute (communications : list (list (Z * Z)))
  (needs : gmap coord coord) : gmap coord coord :=
  fold_left record_scale (py_enumerate communications) needs.

(** *** FocNet.__init__ *)

(** The configuration: the keyword arguments of [__init__]. *)
Record config (R : Type) : Type := MkConfig {
  cfg_n_scales : Z;
  cfg_n_filters : Z;
  cfg_kernel_size : Z;
  cfg_n_convs_per_scale : list Z;
  cfg_communications_between_scales : list (list (Z * Z));
  cfg_beta : R
}.
Arguments MkConfig {R}.
Arguments cfg_n_scales {R}.
Arguments cfg_n_filters {R}.
Arguments cfg_kernel_size {R}.
Arguments cfg_n_convs_per_scale {R}.
Arguments cfg_communications_between_scales {R}.
Arguments cfg_beta {R}.

(** [[FocConvBlock(...) for _ in range(n_conv_blocks)] for n_conv_blocks in ...]] *)
Definition make_conv_blocks (n_convs : list Z) : list (list block_id) :=
  imap (fun (s : nat) (n_conv_blocks : Z) =>
          map (fun j : nat => (s, j)) (seq 0 (Z.to_nat n_conv_blocks)))
       n_convs.

(** The attributes [__init__] sets (lines 62-93). *)
Definition construct {R : Type} (c : config R) : FocNet R :=
  let needs := ∅ in
  let needs := build_needs_to_compute (cfg_communications_between_scales c) needs in
  {| n_scales := cfg_n_scales c;
     n_filters := cfg_n_filters c;
     kernel_size := cfg_kernel_size c;
     n_convs_per_scale := cfg_n_convs_per_scale c;
     communications_between_scales := cfg_communications_between_scales c;
     beta := cfg_beta c;
     conv_blocks_per_scale := make_conv_blocks (cfg_n_convs_per_scale c);
     needs_to_compute := needs |}.

(** *** The Keras layer constructors and FocNet.__init__ *)

(** What a Keras layer constructor raises on arguments it rejects. *)
Inductive layer_error : Type := ValueError.

(** The outcome of a construction. *)
Inductive built (A : Type) : Type :=
| Built (a : A)
| Rejected (e : layer_error).
Arguments Built {A} a.
Arguments Rejected {A} e.

#[export] Instance built_ret : MRet built := fun A => @Built A.
#[export] Instance built_bind : MBind built := fun A B f m =>
  match m with
  | Built a => f a
  | Rejected e => Rejected e
  end.

(** Keras is not part of the sources.  The constructor of the model passes
    two of its arguments to Keras: [n_filters] and [kernel_size], both to
    [Conv2D]; which values [Conv2D] accepts is a parameter of the model.
    The other layer constructors ([AveragePooling2D(padding='same')],
    [UpSampling2D()], [BatchNormalization()], [Activation('relu')]) are called
    with the constants of the source only. *)
Class Keras := {
  Conv2D_accepts : Z -> Z -> bool
}.

(** [Conv2D(filters, kernel_size, padding='same', use_bias=...)] *)
Definition Conv2D_new `{Keras} (filters kernel_size : Z) : built unit :=
  if Conv2D_accepts filters kernel_size then Built tt else Rejected ValueError.

(** [FocConvBlock.__init__] (lines 31-42); the result is the name of the new
    block. *)
Definition FocConvBlock_init `{Keras} (n_filters kernel_size : Z) (name : block_id)
  : built block_id :=
  _ ← Conv2D_new n_filters kernel_size;
  Built name.

(** [[FocConvBlock(...) for _ in range(n_conv_blocks)]], one constructor call
    after the other. *)
Fixpoint new_blocks `{Keras} (n_filters kernel_size : Z) (names : list block_id)
  : built (list block_id) :=
  match names with
  | [] => Built []
  | name :: rest =>
      block ← FocConvBlock_init n_filters kernel_size name;
      blocks ← new_blocks n_filters kernel_size rest;
      Built (block :: blocks)
  end.

(** Lines 79-85: the blocks of scale [s], [s + 1], ... *)
Fixpoint new_conv_blocks `{Keras} (n_filters kernel_size : Z) (s : nat) (n_convs : list Z)
  : built (list (list block_id)) :=
  match n_convs with
  | [] => Built []
  | n_conv_blocks :: rest =>
      blocks ← new_blocks n_filters kernel_size
                 (map (fun j : nat => (s, j)) (seq 0 (Z.to_nat n_conv_blocks)));
      more ← new_conv_blocks n_filters kernel_size (S s) rest;
      Built (blocks :: more)
  end.

(** [FocNet.__init__] (lines 61-93), in the order of the source: the first
    convolution, the blocks, the final convolution, the dependency mapping.
    No statement of the constructor looks at [n_scales], at the length of
    [n_convs_per_scale] or at the steps of [communications_between_scales]. *)
Definition FocNet_init `{Keras} {R : Type} (c : config R) : built (FocNet R) :=
  _ ← Conv2D_new (cfg_n_filters c) (cfg_kernel_size c);
  blocks ← new_conv_blocks (cfg_n_filters c) (cfg_kernel_size c) 0
             (cfg_n_convs_per_scale c);
  _ ← Conv2D_new 1 1;
  let needs := ∅ in
  let needs := build_needs_to_compute (cfg_communications_between_scales c) needs in
  Built {| n_scales := cfg_n_scales c;
           n_filters := cfg_n_filters c;
           kernel_size := cfg_kernel_size c;
           n_convs_per_scale := cfg_n_convs_per_scale c;
           communications_between_scales := cfg_communications_between_scales c;
           beta := cfg_beta c;
           conv_blocks_per_scale := blocks;
           needs_to_compute := needs |}.

(** A Keras whose [Conv2D] accepts exactly the positive arguments, for
    examples. *)
Definition keras_positive : Keras :=
  {| Conv2D_accepts := fun filters kernel_size => (0 <? filters) && (0 <? kernel_size) |}.

Definition default_config {R : Type} (b : R) : config R :=
  MkConfig 4 128 3 DEFAULT_N_CONVS_PER_SCALE DEFAULT_COMMUNICATION_BETWEEN_SCALES b.

(** ** FocNet.call: the scheduler *)

(** The local variables of [call] that live across iterations. *)
Record state (T : Type) : Type := MkState {
  i_scale : Z;
  i_feature : Z;
  features_per_scale : list (list T)
}.
Arguments MkState {T}.
Arguments i_scale {T}.
Arguments i_feature {T}.
Arguments features_per_scale {T}.

(** What one iteration of the [while] loop did (instrumentation, not part of
    the source's state): either it took the [continue] of line 130, or it
    called the block [conv_blocks_per_scale[i_scale][i_feature]] of line 158.
    [ev_at] is [(i_scale, i_feature)] after the overflow check of line 113;
    [ev_stored] is [len(features_per_scale[i_scale])] when the block is
    called; [ev_dep] is the coordinate read at line 133, if any, with the
    length of its store at that moment. *)
Inductive event : Type :=
| Jumped (ev_at : coord) (ev_target : coord)
| Computed (ev_at : coord) (ev_block : block_id) (ev_stored : nat)
           (ev_dep : option (coord * nat)).

Section Call.
Context {T R : Type} `{Scalar R} `{Tensor T R}.

(** Lines 165-166: the weighted residual sum. *)
Definition add_residuals (new_feature : T) (weights : list R) (store : list T) : T :=
  fold_left (fun acc (p : R * T) => tadd acc (tscale p.1 p.2))
            (py_zip weights store) new_feature.

(** Lines 158-168. *)
Definition compute_feature (self : FocNet R) (features : list (list T))
    (i_s i_f : Z) (feature : T) (dep : option (coord * nat))
  : res (state T * event) :=
  blocks ← subscript (conv_blocks_per_scale self) i_s;
  block ← subscript blocks i_f;
  let new_feature := FocConvBlock_call block feature in
  let weights := residual_weights_computation i_f (beta self) in
  store ← subscript features i_s;
  let new_feature := add_residuals new_feature weights store in
  features' ← append_at features i_s new_feature;
  Ok (MkState i_s (i_f + 1) features',
      Computed (i_s, i_f) block (length store) dep).

(** Lines 113-115: the overflow check; the result is the pair
    [(i_scale, i_feature)] the rest of the iteration works with. *)
Definition overflow_check (self : FocNet R) (st : state T) : res coord :=
  n_here ← subscript (n_convs_per_scale self) (i_scale st);
  if n_here <=? i_feature st then
    let i_s := i_scale st - 1 in
    store ← subscript (features_per_scale st) i_s;
    Ok (i_s, len store - 1)
  else Ok (i_scale st, i_feature st).

(** Lines 134-145: a feature of a coarser scale is unpooled, one of a finer
    scale is pooled. *)
Definition resample (i_s i_scale_to_compute : Z) (additional_feature : T) : T :=
  if i_s <? i_scale_to_compute then unpooling additional_feature
  else pooling additional_feature.

(** Lines 113-168: the body of the [while] loop. *)
Definition iteration (self : FocNet R) (st : state T) : res (state T * event) :=
  let features := features_per_scale st in
  '(i_s, i_f) ← overflow_check self st;
  match needs_get self (i_s, i_f) with
  | Some (i_scale_to_compute, i_feature_to_compute) =>
      let node_to_compute := (i_scale_to_compute, i_feature_to_compute) in
      store_to_compute ← subscript features i_scale_to_compute;
      let n_features_scale_to_compute := len store_to_compute in
      if n_features_scale_to_compute <=? i_feature_to_compute then
        let target := (i_scale_to_compute, Z.max (n_features_scale_to_compute - 1) 0) in
        Ok (MkState target.1 target.2 features, Jumped (i_s, i_f) target)
      else
        additional_feature ← subscript store_to_compute i_feature_to_compute;
        let additional_feature_processed :=
          resample i_s i_scale_to_compute additional_feature in
        let dep := Some (node_to_compute, length store_to_compute) in
        store ← subscript features i_s;
        if len store =? 0 then
          features' ← append_at features i_s additional_feature_processed;
          compute_feature self features' i_s i_f additional_feature_processed dep
        else
          last_feature ← subscript store i_f;
          compute_feature self features i_s i_f
            (concat last_feature additional_feature_processed) dep
  | None =>
      store ← subscript features i_s;
      feature ← subscript store (-1);
      compute_feature self features i_s i_f feature None
  end.

(** Line 112: [i_scale != 0 or i_feature < self.n_convs_per_scale[0]]. *)
Definition loop_condition (self : FocNet R) (st : state T) : res bool :=
  if negb (i_scale st =? 0) then Ok true
  else
    n0 ← subscript (n_convs_per_scale self) 0;
    Ok (i_feature st <? n0).

(** The [while] loop, run for at most [fuel] iterations; [None] when the
    fuel does not suffice.  The events are listed in order. *)
Fixpoint call_loop (fuel : nat) (self : FocNet R) (st : state T) (log : list event)
  : option (res (state T * list event)) :=
  match loop_condition self st with
  | Raise e => Some (Raise e)
  | Ok false => Some (Ok (st, log))
  | Ok true =>
      match fuel with
      | O => None
      | S fuel' =>
          match iteration self st with
          | Raise e => Some (Raise e)
          | Ok (st', ev) => call_loop fuel' self st' (log ++ [ev])
          end
      end
  end.

(** Lines 108-111. *)
Definition initial_state (self : FocNet R) (inputs : T) : res (state T) :=
  let features := replicate (Z.to_nat (n_scales self)) [] in
  features ← append_at features 0 (first_conv inputs);
  Ok (MkState 0 0 features).

(** Line 169. *)
Definition final_projection (self : FocNet R) (st : state T) : res T :=
  store ← subscript (features_per_scale st) 0;
  n0 ← subscript (n_convs_per_scale self) 0;
  feature ← subscript store n0;
  Ok (final_conv feature).

(** The traversal alone: initial state and loop. *)
Definition traverse (fuel : nat) (self : FocNet R) (inputs : T)
  : option (res (state T * list event)) :=
  match initial_state self inputs with
  | Raise e => Some (Raise e)
  | Ok st => call_loop fuel self st []
  end.

Definition call (fuel : nat) (self : FocNet R) (inputs : T) : option (res T) :=
  match traverse fuel self inputs with
  | None => None
  | Some (Raise e) => Some (Raise e)
  | Some (Ok (st, _)) => Some (final_projection self st)
  end.

(** *** The iteration as a step relation

    One constructor per path through the body of the loop; it is
    equivalent to [iteration] (lemmas [iteration_step], [step_iteration])
    and is what the invariants are proved on. *)

(** The input of the block (lines 116-157): the store after a possible
    seeding, the input feature, and the dependency read. *)
Inductive input_feature (self : FocNet R) (features : list (list T)) (i_s i_f : Z)
  : list (list T) -> T -> option (coord * nat) -> Prop :=
| input_plain (store : list T) (feature : T) :
    needs_get self (i_s, i_f) = None ->
    subscript features i_s = Ok store ->
    subscript store (-1) = Ok feature ->
    input_feature self features i_s i_f features feature None
| input_seed (sc fc : Z) (store_c : list T) (x : T) (features' : list (list T)) :
    needs_get self (i_s, i_f) = Some (sc, fc) ->
    subscript features sc = Ok store_c ->
    fc < len store_c ->
    subscript store_c fc = Ok x ->
    subscript features i_s = Ok [] ->
    append_at features i_s (resample i_s sc x) = Ok features' ->
    input_feature self features i_s i_f features' (resample i_s sc x)
                  (Some ((sc, fc), length store_c))
| input_concat (sc fc : Z) (store_c : list T) (x : T) (store : list T) (last_feature : T) :
    needs_get self (i_s, i_f) = Some (sc, fc) ->
    subscript features sc = Ok store_c ->
    fc < len store_c ->
    subscript store_c fc = Ok x ->
    subscript features i_s = Ok store ->
    store <> [] ->
    subscript store i_f = Ok last_feature ->
    input_feature self features i_s i_f features
                  (concat last_feature (resample i_s sc x))
                  (Some ((sc, fc), length store_c)).

Inductive step (self : FocNet R) (st : state T) : state T -> event -> Prop :=
| step_jump (i_s i_f sc fc : Z) (store_c : list T) :
    overflow_check self st = Ok (i_s, i_f) ->
    needs_get self (i_s, i_f) = Some (sc, fc) ->
    subscript (features_per_scale st) sc = Ok store_c ->
    len store_c <= fc ->
    step self st
         (MkState sc (Z.max (len store_c - 1) 0) (features_per_scale st))
         (Jumped (i_s, i_f) (sc, Z.max (len store_c - 1) 0))
| step_compute (i_s i_f : Z) (features : list (list T)) (feature : T)
               (dep : option (coord * nat)) (blocks : list block_id)
               (block : block_id) (store : list T) (features' : list (list T)) :
    overflow_check self st = Ok (i_s, i_f) ->
    input_feature self (features_per_scale st) i_s i_f features feature dep ->
    subscript (conv_blocks_per_scale self) i_s = Ok blocks ->
    subscript blocks i_f = Ok block ->
    subscript features i_s = Ok store ->
    append_at features i_s
      (add_residuals (FocConvBlock_call block feature)
                     (residual_weights_computation i_f (beta self)) store)
      = Ok features' ->
    step self st (MkState i_s (i_f + 1) features')
         (Computed (i_s, i_f) block (length store) dep).

(** The state after at most [k] iterations of the loop. *)
Fixpoint run_for (k : nat) (self : FocNet R) (st : state T) : res (state T) :=
  match k with
  | O => Ok st
  | S k' =>
      match loop_condition self st with
      | Raise e => Raise e
      | Ok false => Ok st
      | Ok true =>
          match iteration self st with
          | Raise e => Raise e
          | Ok (st', _) => run_for k' self st'
          end
      end
  end.
End Call.

(** What a traversal leaves, without the tensors: the final position, the
    lengths of the stores, and the events. *)
Definition summary {T : Type} (r : option (res (state T * list event)))
  : option (Z * Z * list nat * list event) :=
  match r with
  | Some (Ok (st, log)) =>
      Some (i_scale st, i_feature st, map length (features_per_scale st), log)
  | _ => None
  end.

(** The blocks called, in order. *)
Definition blocks_called (log : list event) : list block_id :=
  omap (fun ev => match ev with
                  | Computed _ b _ _ => Some b
                  | Jumped _ _ => None
                  end) log.

(** The model built from the default arguments. *)
Definition default_model {R : Type} (b : R) : FocNet R := construct (default_config b).

(** The events of the traversal of the default model, as a regression
    baseline: 34 block calls and 21 jumps. *)
Definition default_trace : list event :=
  [ Computed (0, 0) (0%nat, 0%nat) 1%nat None;
    Jumped (0, 1) (1, 0);
    Computed (1, 0) (1%nat, 0%nat) 1%nat (Some ((0, 1), 2%nat));
    Jumped (1, 1) (2, 0);
    Computed (2, 0) (2%nat, 0%nat) 1%nat (Some ((1, 1), 2%nat));
    Jumped (2, 1) (3, 0);
    Computed (3, 0) (3%nat, 0%nat) 1%nat (Some ((2, 1), 2%nat));
    Computed (3, 1) (3%nat, 1%nat) 2%nat None;
    Jumped (3, 2) (2, 1);
    Computed (2, 1) (2%nat, 1%nat) 2%nat (Some ((3, 1), 3%nat));
    Computed (2, 2) (2%nat, 2%nat) 3%nat None;
    Jumped (2, 3) (1, 1);
    Computed (1, 1) (1%nat, 1%nat) 2%nat (Some ((2, 2), 4%nat));
    Computed (1, 2) (1%nat, 2%nat) 3%nat None;
    Jumped (1, 3) (0, 1);
    Computed (0, 1) (0%nat, 1%nat) 2%nat (Some ((1, 2), 4%nat));
    Jumped (0, 2) (1, 3);
    Computed (1, 3) (1%nat, 3%nat) 4%nat (Some ((0, 2), 3%nat));
    Jumped (1, 4) (2, 3);
    Computed (2, 3) (2%nat, 3%nat) 4%nat (Some ((1, 4), 5%nat));
    Jumped (2, 4) (3, 2);
    Computed (3, 2) (3%nat, 2%nat) 3%nat (Some ((2, 4), 5%nat));
    Computed (3, 3) (3%nat, 3%nat) 4%nat None;
    Jumped (3, 4) (2, 4);
    Computed (2, 4) (2%nat, 4%nat) 5%nat (Some ((3, 3), 5%nat));
    Computed (2, 5) (2%nat, 5%nat) 6%nat None;
    Jumped (2, 6) (1, 4);
    Computed (1, 4) (1%nat, 4%nat) 5%nat (Some ((2, 5), 7%nat));
    Computed (1, 5) (1%nat, 5%nat) 6%nat None;
    Jumped (1, 6) (0, 2);
    Computed (0, 2) (0%nat, 2%nat) 3%nat (Some ((1, 5), 7%nat));
    Jumped (0, 3) (1, 6);
    Computed (1, 6) (1%nat, 6%nat) 7%nat (Some ((0, 3), 4%nat));
    Jumped (1, 7) (2, 6);
    Computed (2, 6) (2%nat, 6%nat) 7%nat (Some ((1, 7), 8%nat));
    Jumped (2, 7) (3, 4);
    Computed (3, 4) (3%nat, 4%nat) 5%nat (Some ((2, 7), 8%nat));
    Computed (3, 5) (3%nat, 5%nat) 6%nat None;
    Jumped (3, 6) (2, 7);
    Computed (2, 7) (2%nat, 7%nat) 8%nat (Some ((3, 5), 7%nat));
    Computed (2, 8) (2%nat, 8%nat) 9%nat None;
    Jumped (2, 9) (1, 7);
    Computed (1, 7) (1%nat, 7%nat) 8%nat (Some ((2, 8), 10%nat));
    Computed (1, 8) (1%nat, 8%nat) 9%nat None;
    Jumped (1, 9) (0, 3);
    Computed (0, 3) (0%nat, 3%nat) 4%nat (Some ((1, 8), 10%nat));
    Jumped (0, 4) (1, 9);
    Computed (1, 9) (1%nat, 9%nat) 10%nat (Some ((0, 4), 5%nat));
    Jumped (1, 10) (2, 9);
    Computed (2, 9) (2%nat, 9%nat) 10%nat (Some ((1, 10), 11%nat));
    Jumped (2, 10) (3, 6);
    Computed (3, 6) (3%nat, 6%nat) 7%nat (Some ((2, 10), 11%nat));
    Computed (2, 10) (2%nat, 10%nat) 11%nat (Some ((3, 7), 8%nat));
    Computed (1, 10) (1%nat, 10%nat) 11%nat (Some ((2, 11), 12%nat));
    Computed (0, 4) (0%nat, 4%nat) 5%nat (Some ((1, 11), 12%nat)) ].

(** The store-offset condition on one event: a block called for step [f]
    finds [f + 1] stored features at its scale, and the dependency it reads,
    if any, lies inside its store. *)
Definition event_offset_ok (ev : event) : bool :=
  match ev with
  | Jumped _ _ => true
  | Computed (_, f) _ stored dep =>
      (Z.of_nat stored =? f + 1)
      && match dep with
         | Some ((_, fc), n) => (0 <=? fc) && (fc <? Z.of_nat n)
         | None => true
         end
  end.

Definition event_at (ev : event) : coord :=
  match ev with
  | Jumped at_ _ => at_
  | Computed at_ _ _ _ => at_
  end.

Definition is_computed (ev : event) : bool :=
  match ev with
  | Jumped _ _ => false
  | Computed _ _ _ _ => true
  end.

(** Every jump is followed by the call of the block at its target: the
    resume index names the next step to compute. *)
Fixpoint jumps_resume (log : list event) : bool :=
  match log with
  | [] => true
  | Jumped _ target :: rest =>
      match rest with
      | next :: _ =>
          is_computed next
          && ((event_at next).1 =? target.1)
          && ((event_at next).2 =? target.2)
      | [] => false
      end
      && jumps_resume rest
  | Computed _ _ _ _ :: rest => jumps_resume rest
  end.

(** The first entry of every store at the end of a traversal of a model with
    four scales: the stem at scale 0, and at each coarser scale the pooled
    feature of index 1 of the scale above (the dependency of step 0 in the
    default table). *)
Definition seeds_are_resampled {T R : Type} `{Tensor T R} (inputs : T) (st : state T) : Prop :=
  let fs := features_per_scale st in
  (fs !! 0%nat ≫= head) = Some (first_conv inputs) /\
  (fs !! 1%nat ≫= head) = (pooling <$> (fs !! 0%nat ≫= (.!! 1%nat))) /\
  (fs !! 2%nat ≫= head) = (pooling <$> (fs !! 1%nat ≫= (.!! 1%nat))) /\
  (fs !! 3%nat ≫= head) = (pooling <$> (fs !! 2%nat ≫= (.!! 1%nat))).

(** ** Reference definitions taken from the specification *)

(** The dependency construction in the specification's words: for the
    adjacency list between scales [s] and [s+1], a direction flag starts at
    downscale; a pair [(step_upper, step_lower)] records
    [(s+1, step_lower) -> (s, step_upper)] when the direction is downscale and
    [(s, step_upper) -> (s+1, step_lower)] otherwise; the direction flips
    after every pair. *)
Fixpoint spec_records (s : Z) (downscale : bool) (pairs : list (Z * Z))
  : list (coord * coord) :=
  match pairs with
  | [] => []
  | (step_upper, step_lower) :: rest =>
      (if downscale then ((s + 1, step_lower), (s, step_upper))
       else ((s, step_upper), (s + 1, step_lower)))
      :: spec_records s (negb downscale) rest
  end.

Definition spec_record_all (g : gmap coord coord) (records : list (coord * coord))
  : gmap coord coord :=
  fold_left (fun g (r : coord * coord) => <[r.1 := r.2]> g) records g.

Fixpoint spec_graph_from (s : Z) (table : list (list (Z * Z))) (g : gmap coord coord)
  : gmap coord coord :=
  match table with
  | [] => g
  | pairs :: rest =>
      spec_graph_from (s + 1) rest (spec_record_all g (spec_records s true pairs))
  end.

Definition spec_dependency_graph (table : list (list (Z * Z))) : gmap coord coord :=
  spec_graph_from 0 table ∅.

(** Modelled from the spec: the configuration checks of section 7 that the
    constructor is said to perform (the source has no such function): the
    two length conditions, and every pair within the bounds of its scales. *)
Definition spec_step_in_bounds (n_convs : list Z) (s : nat) (step : Z) : bool :=
  match n_convs !! s with
  | Some n => (0 <=? step) && (step <=? n)
  | None => false
  end.

Definition spec_pairs_in_bounds (n_convs : list Z) (s : nat) (pairs : list (Z * Z)) : bool :=
  forallb (fun p : Z * Z =>
             spec_step_in_bounds n_convs s p.1 && spec_step_in_bounds n_convs (S s) p.2)
          pairs.

Definition spec_config_checks {R : Type} (c : config R) : bool :=
  (len (cfg_n_convs_per_scale c) =? cfg_n_scales c)
  && (len (cfg_communications_between_scales c) =? cfg_n_scales c - 1)
  && forallb (fun e : nat * list (Z * Z) =>
                spec_pairs_in_bounds (cfg_n_convs_per_scale c) e.1 e.2)
             (imap (fun s pairs => (s, pairs)) (cfg_communications_between_scales c)).

(** The twenty-four entries of the default dependency mapping. *)
Definition default_needs_to_compute : gmap coord coord :=
  list_to_map
    [ ((1, 0), (0, 1)); ((0, 1), (1, 2)); ((1, 3), (0, 2)); ((0, 2), (1, 5));
      ((1, 6), (0, 3)); ((0, 3), (1, 8)); ((1, 9), (0, 4)); ((0, 4), (1, 11));
      ((2, 0), (1, 1)); ((1, 1), (2, 2)); ((2, 3), (1, 4)); ((1, 4), (2, 5));
      ((2, 6), (1, 7)); ((1, 7), (2, 8)); ((2, 9), (1, 10)); ((1, 10), (2, 11));
      ((3, 0), (2, 1)); ((2, 1), (3, 1)); ((3, 2), (2, 4)); ((2, 4), (3, 3));
      ((3, 4), (2, 7)); ((2, 7), (3, 5)); ((3, 6), (2, 10)); ((2, 10), (3, 7)) ].

(** A configuration whose lengths disagree with [n_scales], and whose only
    adjacency list makes scale 0 wait for a scale that has no store. *)
Definition mismatched_config : config Q :=
  MkConfig 1 128 3 [2; 2] [[(0, 0); (0, 0)]] (1 # 5)%Q.

(** ** A small tensor algebra for examples *)

(** Images of one pixel: a tensor is the list of its channel values.  Every
    convolution keeps its input (identity kernel, no bias), normalisation is
    the identity, resampling one pixel keeps it, the final convolution keeps
    the first channel. *)
#[export] Instance pixel_tensor : Tensor (list Q) Q := {
  first_conv := fun x => x;
  block_conv := fun _ x => x;
  block_bn := fun _ x => x;
  relu := map (fun v => if Qle_bool 0 v then v else 0%Q);
  pooling := fun x => x;
  unpooling := fun x => x;
  concat := fun x y => x ++ y;
  tadd := fun x y => zip_with Qplus x y;
  tscale := fun r x => map (Qmult r) x;
  final_conv := fun x => take 1 x
}.

(** The state [call] starts from on the one-pixel image [[1]] with four
    scales, and the state one iteration later under the default model. *)
Definition pixel_start : state (list Q) :=
  MkState 0 0 [[[1%Q]]; []; []; []].

Definition pixel_after_one : state (list Q) :=
  MkState 0 1 [[[1%Q]; [(6 # 5)%Q]]; []; []; []].

(** ** Comparing two tensor algebras *)

(** Two computations that end the same way: both raise, or both return, with
    related results. *)
Inductive res_rel {A B : Type} (P : A -> B -> Prop) : res A -> res B -> Prop :=
| res_rel_Ok (a : A) (b : B) : P a b -> res_rel P (Ok a) (Ok b)
| res_rel_Raise (e : error) : res_rel P (Raise e) (Raise e).

Definition same_lengths {A B : Type} (ls : list (list A)) (ks : list (list B)) : Prop :=
  Forall2 (fun (l : list A) (k : list B) => length l = length k) ls ks.

(** Two states of the scheduler at the same position with stores of the same
    lengths. *)
Definition same_position {A B : Type} (st1 : state A) (st2 : state B) : Prop :=
  i_scale st1 = i_scale st2 /\
  i_feature st1 = i_feature st2 /\
  same_lengths (features_per_scale st1) (features_per_scale st2).

(** The results of one iteration, and of a whole traversal, agree. *)
Definition same_step {A B : Type} (r1 : state A * event) (r2 : state B * event) : Prop :=
  same_position r1.1 r2.1 /\ r1.2 = r2.2.

Definition same_run {A B : Type} (r1 : state A * list event) (r2 : state B * list event)
  : Prop :=
  same_position r1.1 r2.1 /\ r1.2 = r2.2.

(** ** Tensors without content, and shapes *)

(** The dry run: tensors carry nothing, only the traversal remains. *)
Definition unit_tensor (R : Type) : Tensor unit R := {|
  first_conv := fun x => x;
  block_conv := fun _ x => x;
  block_bn := fun _ x => x;
  relu := fun x => x;
  pooling := fun x => x;
  unpooling := fun x => x;
  concat := fun x _ => x;
  tadd := fun x _ => x;
  tscale := fun _ x => x;
  final_conv := fun x => x
|}.

(** The traversal of a configuration, run on tensors without content,
    returns within [fuel] iterations: it reads nothing out of range and
    reaches the end of the loop. *)
Definition dry_run_returns {R : Type} `{Scalar R} (c : config R) (fuel : nat) : Prop :=
  exists out : unit,
    @call unit R _ (unit_tensor R) fuel (construct c) tt = Some (Ok out).

(** The shape of a tensor without its batch dimension, which every primitive
    keeps. *)
Record shape : Type := MkShape {
  height : Z;
  width : Z;
  channels : Z
}.

(** Broadcasting of one dimension in an elementwise addition. *)
Definition broadcast_dim (a b : Z) : option Z :=
  if a =? b then Some a
  else if a =? 1 then Some b
  else if b =? 1 then Some a
  else None.

(** A shape TensorFlow can work with: no dimension is zero or negative. *)
Definition positive_shape (s : shape) : bool :=
  (0 <? height s) && (0 <? width s) && (0 <? channels s).

Definition known (s : shape) : option shape :=
  if positive_shape s then Some s else None.

(** Modelled from the spec: the shapes the external primitives produce
    (TensorFlow and Keras are not part of the sources; sections 2, 4.1, 4.4
    and 6 of the specification describe them).  [None] is the shape of
    nothing: the operation raised a shape error, and every later operation on
    its result does too.  Every primitive rejects a tensor with a dimension
    that is not positive, and produces none.
    - [Conv2D(n_filters, padding='same')]: same height and width, [n_filters]
      channels; [Conv2D(1, 1, padding='same')] for the final convolution;
    - [BatchNormalization], [Activation('relu')], scalar multiplication: same
      shape;
    - [AveragePooling2D(padding='same')]: height and width halved, rounded up;
    - [UpSampling2D()]: height and width doubled;
    - [tf.concat(axis=-1)]: equal height and width, channels added;
    - [+]: broadcasting on every dimension. *)
Definition shape_tensor (R : Type) (filters : Z) : Tensor (option shape) R := {|
  first_conv := fun x =>
    s ← x ≫= known; known (MkShape (height s) (width s) filters);
  block_conv := fun _ x =>
    s ← x ≫= known; known (MkShape (height s) (width s) filters);
  block_bn := fun _ x => x ≫= known;
  relu := fun x => x ≫= known;
  pooling := fun x =>
    s ← x ≫= known;
    known (MkShape ((height s + 1) / 2) ((width s + 1) / 2) (channels s));
  unpooling := fun x =>
    s ← x ≫= known;
    known (MkShape (2 * height s) (2 * width s) (channels s));
  concat := fun x y =>
    s ← x ≫= known; t ← y ≫= known;
    if (height s =? height t) && (width s =? width t)
    then Some (MkShape (height s) (width s) (channels s + channels t))
    else None;
  tadd := fun x y =>
    s ← x ≫= known; t ← y ≫= known;
    h ← broadcast_dim (height s) (height t);
    w ← broadcast_dim (width s) (width t);
    c ← broadcast_dim (channels s) (channels t);
    Some (MkShape h w c);
  tscale := fun _ x => x ≫= known;
  final_conv := fun x =>
    s ← x ≫= known; known (MkShape (height s) (width s) 1)
|}.

(** The shape every feature of scale [s] has for an input of [h] by [w]. *)
Definition scale_shape (filters h w : Z) (s : nat) : option shape :=
  Some (MkShape (h / 2 ^ Z.of_nat s) (w / 2 ^ Z.of_nat s) filters).

Definition well_shaped (filters h w : Z) (features : list (list (option shape))) : Prop :=
  forall (s : nat) (store : list (option shape)) (x : option shape),
    features !! s = Some store -> x ∈ store -> x = scale_shape filters h w s.

(** Two coordinates on adjacent scales, none of them negative. *)
Definition adjacent (a b : coord) : Prop :=
  (b.1 = a.1 + 1 /\ 0 <= a.1) \/ (a.1 = b.1 + 1 /\ 0 <= b.1).

Definition adjacent_map (g : gmap coord coord) : Prop :=
  forall a b : coord, g !! a = Some b -> adjacent a b.

(** What the traversal keeps true on shapes: one store per scale, and every
    stored feature has the shape of its scale. *)
Definition shape_invariant (n_scales filters h w : Z) (st : state (option shape)) : Prop :=
  length (features_per_scale st) = Z.to_nat n_scales /\
  well_shaped filters h w (features_per_scale st).

(** A configuration of two scales whose dependencies wait for each other:
    step 0 of scale 0 needs index 1 of scale 1, and step 0 of scale 1 needs
    index 1 of scale 0. *)
Definition cyclic_config : config Q :=
  MkConfig 2 128 3 [2; 2] [[(1, 0); (0, 1)]] (1 # 5)%Q.

(** A configuration of two scales in which step 1 of scale 0 waits for
    index 0 of scale 1, while nothing seeds the store of scale 1: the first
    dependency of scale 1 is at its step 1. *)
Definition seedless_config : config Q :=
  MkConfig 2 128 3 [2; 2] [[(1, 1); (1, 0)]] (1 # 5)%Q.

(** Modelled from the spec: the dependency graph is acyclic when traced
    through the jump-resolution rule, detected with a visited set during a
    dry-run trace (section 7).  A state of the dry run is the position and
    the lengths of the stores.  The result is [Some true] when the trace ends
    without visiting a state twice, [Some false] when a state is visited
    twice, [None] when [fuel] iterations do not decide. *)
Definition dry_state (st : state unit) : Z * Z * list nat :=
  (i_scale st, i_feature st, map length (features_per_scale st)).

Fixpoint spec_trace_acyclic {R : Type} `{Scalar R} (fuel : nat) (self : FocNet R)
    (st : state unit) (visited : list (Z * Z * list nat)) : option bool :=
  if bool_decide (dry_state st ∈ visited) then Some false
  else
    match @loop_condition unit R self st with
    | Raise _ => Some true
    | Ok false => Some true
    | Ok true =>
        match fuel with
        | O => None
        | S fuel' =>
            match @iteration unit R _ (unit_tensor R) self st with
            | Raise _ => Some true
            | Ok (st', _) =>
                spec_trace_acyclic fuel' self st' (dry_state st :: visited)
            end
        end
    end.

Definition spec_acyclic {R : Type} `{Scalar R} (fuel : nat) (c : config R) : option bool :=
  match @initial_state unit R (unit_tensor R) (construct c) tt with
  | Raise _ => Some true
  | Ok st => spec_trace_acyclic fuel (construct c) st []
  end.

(** Modelled from the spec: the conditions of sections 6 and 7 on a
    configuration (the source has no such function): positive [n_scales],
    [n_filters] and steps per scale, positive odd [kernel_size], the two
    length conditions, every pair within the bounds of its scales, and a
    dependency graph found acyclic within [fuel] iterations of the dry run. *)
Definition spec_valid_config {R : Type} `{Scalar R} (fuel : nat) (c : config R) : bool :=
  (0 <? cfg_n_scales c) && (0 <? cfg_n_filters c)
  && (0 <? cfg_kernel_size c) && Z.odd (cfg_kernel_size c)
  && forallb (fun n => 0 <? n) (cfg_n_convs_per_scale c)
  && spec_config_checks c
  && bool_decide (spec_acyclic fuel c = Some true).

(** ** Further definitions *)

From Stdlib Require Import Lqa.

(** A weight between 0 (excluded) and [beta] (included). *)
Definition weight_in_range (beta x : Q) : Prop := (0 < x)%Q /\ (x <= beta)%Q.

(** The dependencies a table records, in the order [build_needs_to_compute]
    records them: receiving coordinate first, source second. *)
Fixpoint records_from (s : Z) (table : list (list (Z * Z))) : list (coord * coord) :=
  match table with
  | [] => []
  | pairs :: rest => spec_records s true pairs ++ records_from (s + 1) rest
  end.

(** The dependency a pair records when it is the [j]-th of its adjacency
    list (counted from 0) between scales [s] and [s + 1]. *)
Definition record_of (s : Z) (j : nat) (p : Z * Z) : coord * coord :=
  if Nat.even j then ((s + 1, p.2), (s, p.1)) else ((s, p.1), (s + 1, p.2)).

(** ** The invariants of the traversal *)

(** A table without negative step indices. *)
Definition nonneg_steps (table : list (list (Z * Z))) : Prop :=
  Forall (Forall (fun p : Z * Z => 0 <= p.1 /\ 0 <= p.2)) table.

(** At the head of the loop the scale is not negative and the step is the
    resume index of its store: [max(len(store) - 1, 0)]. *)
Definition position_ok {T : Type} (st : state T) : Prop :=
  0 <= i_scale st /\
  forall store : list T,
    features_per_scale st !! Z.to_nat (i_scale st) = Some store ->
    i_feature st = Z.max (len store - 1) 0.

(** No store is longer than the number of blocks of its scale plus one. *)
Definition stores_bounded {T : Type} (n_convs : list Z) (features : list (list T)) : Prop :=
  forall (s : nat) (store : list T) (n : Z),
    features !! s = Some store -> n_convs !! s = Some n ->
    len store <= Z.max n 0 + 1.

(** What every event of a traversal satisfies: coordinates are not
    negative, jumps and dependencies join adjacent scales, a block is called
    at its own coordinate, inside the configured steps of its scale, with
    exactly [step + 1] features stored, and it reads its dependency inside
    the dependency's store. *)
Definition event_wf (n_convs : list Z) (ev : event) : Prop :=
  match ev with
  | Jumped (s, f) (sc, fc) =>
      0 <= s /\ 0 <= f /\ 0 <= sc /\ 0 <= fc /\ (sc = s + 1 \/ s = sc + 1)
  | Computed (s, f) block stored dep =>
      0 <= s /\ 0 <= f /\ Z.of_nat stored = f + 1 /\
      block = (Z.to_nat s, Z.to_nat f) /\
      (exists n : Z, n_convs !! Z.to_nat s = Some n /\ f < n) /\
      match dep with
      | Some ((sc, fc), n) => (sc = s + 1 \/ s = sc + 1) /\ 0 <= fc < Z.of_nat n
      | None => True
      end
  end.

(** Every block call of the log lies strictly below the present length of
    its store. *)
Definition log_below {T : Type} (features : list (list T)) (log : list event) : Prop :=
  forall (s f : Z) (block : block_id) (stored : nat) (dep : option (coord * nat)),
    Computed (s, f) block stored dep ∈ log ->
    exists store : list T,
      features !! Z.to_nat s = Some store /\ f + 1 < len store.

Definition run_invariant {T R : Type} (self : FocNet R) (st : state T) (log : list event)
  : Prop :=
  position_ok st /\
  stores_bounded (n_convs_per_scale self) (features_per_scale st) /\
  Forall (event_wf (n_convs_per_scale self)) log /\
  log_below (features_per_scale st) log /\
  NoDup (blocks_called log).

(** ** A model without communication *)

(** The block calls of a chain of [n] steps at scale 0. *)
Definition chain_log (n : nat) : list event :=
  map (fun j : nat => Computed (0, Z.of_nat j) (0%nat, j) (S j) None) (seq 0 n).

(** The store of scale 0 after [n] steps of a chain: every step feeds the
    last feature to its block and adds the weighted earlier features. *)
Fixpoint chain_store {T R : Type} `{Scalar R} `{Tensor T R}
    (b : R) (inputs : T) (n : nat) : list T :=
  match n with
  | O => [first_conv inputs]
  | S m =>
      let store := chain_store b inputs m in
      store ++ [add_residuals
                  (FocConvBlock_call (0%nat, m) (List.last store (first_conv inputs)))
                  (residual_weights_computation (Z.of_nat m) b) store]
  end.

(** * Properties *)

(** ** Python list helpers *)

Lemma py_norm_nonneg (n : nat) (i : Z) :
  0 <= i < Z.of_nat n -> py_norm n i = Some (Z.to_nat i).
Proof.
  intros [H0 H1]. unfold py_norm.
  destruct (Z.leb_spec 0 i); [|lia].
  destruct (Z.ltb_spec i (Z.of_nat n)); [reflexivity|lia].
Qed.

Lemma py_norm_Some (n : nat) (i : Z) (j : nat) :
  py_norm n i = Some j -> (j < n)%nat.
Proof.
  unfold py_norm.
  destruct (Z.leb_spec 0 i).
  - destruct (Z.ltb_spec i (Z.of_nat n)); intros [= <-]; lia.
  - destruct (Z.leb_spec 0 (Z.of_nat n + i)); intros [= <-]; lia.
Qed.

Lemma py_index_nonneg {A : Type} (l : list A) (i : Z) :
  0 <= i -> py_index l i = l !! Z.to_nat i.
Proof.
  intros Hi. unfold py_index, py_norm.
  destruct (Z.leb_spec 0 i); [|lia].
  destruct (Z.ltb_spec i (Z.of_nat (length l))); [reflexivity|].
  symmetry. apply lookup_ge_None. lia.
Qed.

Lemma py_index_last {A : Type} (l : list A) :
  py_index l (-1) = l !! (length l - 1)%nat /\
  (l <> [] -> py_index l (-1) = py_index l (len l - 1)).
Proof.
  unfold py_index, py_norm, len. simpl (0 <=? -1).
  destruct l as [|x l].
  - split; [reflexivity|congruence].
  - cbn [length].
    destruct (Z.leb_spec 0 (Z.of_nat (S (length l)) + -1)); [|lia].
    destruct (Z.leb_spec 0 (Z.of_nat (S (length l)) - 1)); [|lia].
    destruct (Z.ltb_spec (Z.of_nat (S (length l)) - 1) (Z.of_nat (S (length l)))); [|lia].
    replace (Z.to_nat (Z.of_nat (S (length l)) + -1)) with (S (length l) - 1)%nat by lia.
    replace (Z.to_nat (Z.of_nat (S (length l)) - 1)) with (S (length l) - 1)%nat by lia.
    split; reflexivity.
Qed.

Lemma py_range_down_S (start : Z) (n : nat) :
  py_range_down start (start - Z.of_nat (S n)) =
  py_range_down start (start - Z.of_nat n) ++ [start - Z.of_nat n].
Proof.
  unfold py_range_down.
  replace (Z.to_nat (start - (start - Z.of_nat (S n)))) with (S n) by lia.
  replace (Z.to_nat (start - (start - Z.of_nat n))) with n by lia.
  rewrite seq_S, map_app. reflexivity.
Qed.

(** ** residual_weights_computation *)

Section ResidualWeightsFacts.
Context {R : Type} `{Scalar R}.

Lemma weights_after_S (t : Z) (beta : R) (n : nat) :
  weights_after t beta (S n) =
  weights_step t beta (weights_after t beta n) (t - 1 - Z.of_nat n).
Proof.
  unfold weights_after. rewrite py_range_down_S, fold_left_app. reflexivity.
Qed.

Lemma weights_after_length (t : Z) (beta : R) (n : nat) :
  length (weights_after t beta n) = S n.
Proof.
  induction n as [|n IH].
  - unfold weights_after, py_range_down.
    replace (Z.to_nat _) with 0%nat by lia. reflexivity.
  - rewrite weights_after_S. unfold weights_step.
    rewrite length_app, IH. simpl. lia.
Qed.

Lemma weights_after_first (t : Z) (beta : R) (n : nat) :
  weights_after t beta n !! 0%nat = Some beta.
Proof.
  induction n as [|n IH].
  - unfold weights_after, py_range_down.
    replace (Z.to_nat _) with 0%nat by lia. reflexivity.
  - rewrite weights_after_S. unfold weights_step.
    rewrite lookup_app_l; [exact IH|].
    rewrite weights_after_length. lia.
Qed.

Lemma last_lookup_default (l : list R) (d : R) :
  l <> [] -> l !! (length l - 1)%nat = Some (List.last l d).
Proof.
  induction l as [|x l IH]; [congruence|]. intros _.
  destruct l as [|y l]; [reflexivity|].
  cbn [length] in *. replace (S (S (length l)) - 1)%nat with (S (length l)) by lia.
  change (List.last (x :: y :: l) d) with (List.last (y :: l) d).
  rewrite <- IH by congruence.
  simpl. replace (length l - 0)%nat with (length l) by lia. reflexivity.
Qed.

(** Iteration [j] (counted from 1) handles [k = t - j] and stores its
    product at index [j]. *)
Lemma weights_after_step (t : Z) (beta : R) (n j : nat) :
  (1 <= j <= n)%nat ->
  exists x : R,
    weights_after t beta n !! (j - 1)%nat = Some x /\
    weights_after t beta n !! j = Some (smul (decay t beta (t - Z.of_nat j)) x).
Proof.
  induction n as [|n IH]; [lia|]. intros Hj.
  rewrite weights_after_S. unfold weights_step.
  pose proof (weights_after_length t beta n) as Hlen.
  destruct (decide (j = S n)) as [->|Hne].
  - exists (List.last (weights_after t beta n) beta). split.
    + rewrite lookup_app_l by lia.
      rewrite <- (last_lookup_default _ beta).
      * rewrite Hlen. reflexivity.
      * intros E. rewrite E in Hlen. discriminate.
    + rewrite lookup_app_r by lia.
      rewrite Hlen, Nat.sub_diag. simpl.
      do 3 f_equal. lia.
  - destruct IH as (x & Hx & Hy); [lia|].
    exists x. rewrite !lookup_app_l by lia. auto.
Qed.

Lemma rwc_unfold (t : Z) (beta : R) :
  residual_weights_computation t beta =
  reverse (weights_after t beta (Z.to_nat (t - 1))).
Proof.
  unfold residual_weights_computation, weights_after.
  destruct (Z.le_gt_cases 1 t).
  - do 3 f_equal. lia.
  - unfold py_range_down.
    replace (Z.to_nat (t - 1 - 0)) with 0%nat by lia.
    replace (Z.to_nat (t - 1 - (t - 1 - _))) with 0%nat by lia.
    reflexivity.
Qed.

Lemma rwc_lookup (t : Z) (beta : R) (i : nat) :
  1 <= t -> (i < Z.to_nat t)%nat ->
  residual_weights_computation t beta !! i =
  weights_after t beta (Z.to_nat (t - 1)) !! (Z.to_nat t - 1 - i)%nat.
Proof.
  intros Ht Hi. rewrite rwc_unfold.
  pose proof (weights_after_length t beta (Z.to_nat (t - 1))) as Hlen.
  rewrite reverse_lookup by lia.
  f_equal. lia.
Qed.

(** For a step below 1 the loop does not run: the result is [[beta]]. *)
Lemma rwc_small (t : Z) (beta : R) :
  t <= 1 -> residual_weights_computation t beta = [beta].
Proof.
  intros Ht. unfold residual_weights_computation, py_range_down.
  replace (Z.to_nat (t - 1 - 0)) with 0%nat by lia. reflexivity.
Qed.

(** C3: for every step >= 1 the result has exactly [step] entries, the last
    one is [beta], and going down from [k = step - 1] to [k = 1] entry
    [k - 1] is [(1 - (1 + beta) / (step - k + 1))] times entry [k]. *)
Theorem residual_weights_recursion (step : Z) (beta : R) (Hstep : 1 <= step) :
  let w := residual_weights_computation step beta in
  length w = Z.to_nat step /\
  w !! Z.to_nat (step - 1) = Some beta /\
  py_index w (-1) = Some beta /\
  (forall k : Z, 1 <= k <= step - 1 ->
     exists w_k : R,
       w !! Z.to_nat k = Some w_k /\
       w !! Z.to_nat (k - 1) =
         Some (smul (ssub (of_int 1)
                          (sdiv (sadd (of_int 1) beta) (of_int (step - k + 1))))
                    w_k)).
Proof.
  intros w. subst w.
  pose proof (weights_after_length step beta (Z.to_nat (step - 1))) as Hlen.
  assert (Hl : length (residual_weights_computation step beta) = Z.to_nat step).
  { rewrite rwc_unfold, length_reverse, Hlen. lia. }
  assert (Hlast : residual_weights_computation step beta !! Z.to_nat (step - 1)
                  = Some beta).
  { rewrite rwc_lookup by lia.
    replace (Z.to_nat step - 1 - Z.to_nat (step - 1))%nat with 0%nat by lia.
    apply weights_after_first. }
  repeat split; [exact Hl|exact Hlast| |].
  - destruct (py_index_last (residual_weights_computation step beta)) as [-> _].
    rewrite Hl. rewrite <- Hlast. f_equal. lia.
  - intros k Hk.
    destruct (weights_after_step step beta (Z.to_nat (step - 1))
                (Z.to_nat (step - k))) as (x & Hx & Hy); [lia|].
    exists x. split.
    + rewrite rwc_lookup by lia. rewrite <- Hx. f_equal. lia.
    + rewrite rwc_lookup by lia.
      replace (Z.to_nat step - 1 - Z.to_nat (k - 1))%nat
        with (Z.to_nat (step - k)) by lia.
      rewrite Hy. unfold decay. do 6 f_equal. lia.
Qed.
End ResidualWeightsFacts.

Lemma residual_weights_recursion_witness :
  1 <= 3 /\
  length (residual_weights_computation 3 (1 # 5)%Q) = 3%nat /\
  py_index (residual_weights_computation 3 (1 # 5)%Q) (-1) = Some (1 # 5)%Q.
Proof.
  split; [lia|].
  pose proof (residual_weights_recursion 3 (1 # 5)%Q ltac:(lia)) as (Hl & _ & Hb & _).
  split; [exact Hl|exact Hb].
Defined.

(** C4 (as amended): with beta = 1/5 the weights of step 1 are [1/5], and
    the weights of step 3 are 6/125, 2/25, 1/5 (0.048, 0.08, 0.2), as exact
    rationals. *)
Theorem residual_weights_values :
  Forall2 Qeq (residual_weights_computation 1 (1 # 5)%Q) [(2 # 10)%Q] /\
  Forall2 Qeq (residual_weights_computation 3 (1 # 5)%Q)
              [(48 # 1000)%Q; (8 # 100)%Q; (2 # 10)%Q] /\
  map Qred (residual_weights_computation 3 (1 # 5)%Q)
    = [(6 # 125)%Q; (2 # 25)%Q; (1 # 5)%Q].
Proof.
  split; [|split].
  - repeat constructor.
  - repeat constructor; reflexivity.
  - reflexivity.
Qed.

(** The numbers of the specification for step 3 are not what the recursion
    gives. *)
Lemma residual_weights_values_spec_numbers_fail :
  ~ (Forall2 Qeq (residual_weights_computation 1 (1 # 5)%Q) [(2 # 10)%Q] /\
     Forall2 Qeq (residual_weights_computation 3 (1 # 5)%Q)
                 [(4 # 1000)%Q; (-2 # 100)%Q; (2 # 10)%Q]).
Proof.
  intros [_ H3].
  apply Forall2_cons_1 in H3 as [Hq _].
  vm_compute in Hq. discriminate Hq.
Qed.

(** ** build_needs_to_compute *)

Lemma record_pair_spec (s : Z) (pairs : list (Z * Z)) (g : gmap coord coord) (down : bool) :
  (fold_left (record_pair s) pairs (g, down)).1 =
  spec_record_all g (spec_records s down pairs).
Proof.
  revert g down. induction pairs as [|[up dn] pairs IH]; intros g down.
  - reflexivity.
  - cbn [fold_left spec_records]. unfold spec_record_all in *.
    cbn [fold_left]. unfold record_pair at 2.
    rewrite IH. destruct down; reflexivity.
Qed.

Lemma py_enumerate_cons {A : Type} (x : A) (l : list A) :
  py_enumerate (x :: l) = (0, x) :: map (fun e : Z * A => (e.1 + 1, e.2)) (py_enumerate l).
Proof.
  unfold py_enumerate. cbn [imap]. f_equal.
  change (map ?f ?l) with (f <$> l).
  rewrite fmap_imap. apply imap_ext. intros j y _. cbn. f_equal. lia.
Qed.

Lemma build_from_spec (table : list (list (Z * Z))) (s : Z) (g : gmap coord coord) :
  fold_left record_scale (map (fun e : Z * list (Z * Z) => (e.1 + s, e.2)) (py_enumerate table)) g =
  spec_graph_from s table g.
Proof.
  revert s g. induction table as [|pairs table IH]; intros s g.
  - reflexivity.
  - rewrite py_enumerate_cons. cbn [map fold_left spec_graph_from fst snd].
    unfold record_scale at 2. rewrite record_pair_spec.
    rewrite map_map. cbn [fst snd].
    rewrite <- IH. replace (0 + s) with s by lia.
    f_equal. apply map_ext. intros [j l]. cbn. f_equal. lia.
Qed.

Lemma build_needs_to_compute_spec (table : list (list (Z * Z))) :
  build_needs_to_compute table ∅ = spec_dependency_graph table.
Proof.
  unfold build_needs_to_compute, spec_dependency_graph.
  rewrite <- build_from_spec. f_equal.
  rewrite <- (map_id (py_enumerate table)) at 1.
  apply map_ext. intros [j l]. cbn. f_equal. lia.
Qed.

(** C5: for every adjacency table, the mapping [build_needs_to_compute]
    fills is the one of the reference construction: direction flag starting
    at downscale for each adjacency list, [(s+1, step_lower) -> (s, step_upper)]
    when downscale and [(s, step_upper) -> (s+1, step_lower)] otherwise, flipped
    after every pair; on the default table it has the twenty-four entries
    listed in [default_needs_to_compute]. *)
Theorem build_needs_to_compute_reference :
  (forall table : list (list (Z * Z)),
     build_needs_to_compute table ∅ = spec_dependency_graph table) /\
  build_needs_to_compute DEFAULT_COMMUNICATION_BETWEEN_SCALES ∅ = default_needs_to_compute /\
  size default_needs_to_compute = 24%nat.
Proof.
  split; [|split].
  - exact build_needs_to_compute_spec.
  - vm_compute. reflexivity.
  - vm_compute. reflexivity.
Qed.

(** ** The error monad *)

Lemma res_bind_Ok {A B : Type} (m : res A) (f : A -> res B) (b : B) :
  (m ≫= f) = Ok b -> exists a : A, m = Ok a /\ f a = Ok b.
Proof. destruct m as [a|e]; [eauto|discriminate]. Qed.

Lemma subscript_Ok {A : Type} (l : list A) (i : Z) (x : A) :
  subscript l i = Ok x <-> py_index l i = Some x.
Proof.
  unfold subscript. destruct (py_index l i); split; congruence.
Qed.

Lemma subscript_nonempty {A : Type} (l : list A) (i : Z) (x : A) :
  subscript l i = Ok x -> l <> [].
Proof.
  rewrite subscript_Ok. intros Hi ->. unfold py_index in Hi.
  destruct (py_norm (length (@nil A)) i) as [n|] eqn:E; [|discriminate].
  apply py_norm_Some in E. simpl in E. lia.
Qed.

Ltac res_simpl := unfold mbind, res_bind; cbv beta iota.

(** ** The step relation is the iteration *)

Section StepFacts.
Context {T R : Type} `{Scalar R} `{Tensor T R}.

Lemma compute_feature_Ok (self : FocNet R) (features : list (list T)) (i_s i_f : Z)
    (feature : T) (dep : option (coord * nat)) (st' : state T) (ev : event) :
  compute_feature self features i_s i_f feature dep = Ok (st', ev) ->
  exists blocks block store features',
    subscript (conv_blocks_per_scale self) i_s = Ok blocks /\
    subscript blocks i_f = Ok block /\
    subscript features i_s = Ok store /\
    append_at features i_s
      (add_residuals (FocConvBlock_call block feature)
                     (residual_weights_computation i_f (beta self)) store)
      = Ok features' /\
    st' = MkState i_s (i_f + 1) features' /\
    ev = Computed (i_s, i_f) block (length store) dep.
Proof.
  unfold compute_feature. intros Hc.
  apply res_bind_Ok in Hc as (blocks & Hb & Hc).
  apply res_bind_Ok in Hc as (block & Hbl & Hc).
  apply res_bind_Ok in Hc as (store & Hs & Hc).
  apply res_bind_Ok in Hc as (features' & Hf & Hc).
  injection Hc as <- <-.
  exists blocks, block, store, features'. auto 10.
Qed.

Lemma iteration_step (self : FocNet R) (st st' : state T) (ev : event) :
  iteration self st = Ok (st', ev) -> step self st st' ev.
Proof.
  unfold iteration. intros Hit.
  apply res_bind_Ok in Hit as ([i_s i_f] & Hov & Hit).
  destruct (needs_get self (i_s, i_f)) as [[sc fc]|] eqn:Hneeds.
  - apply res_bind_Ok in Hit as (store_c & Hsc & Hit).
    destruct (Z.leb_spec (len store_c) fc) as [Hle|Hgt].
    + injection Hit as <- <-. cbn [fst snd].
      eapply step_jump; eauto.
    + apply res_bind_Ok in Hit as (x & Hx & Hit).
      apply res_bind_Ok in Hit as (store & Hs & Hit).
      destruct (Z.eqb_spec (len store) 0) as [Hz|Hnz].
      * apply res_bind_Ok in Hit as (features' & Hf & Hit).
        apply compute_feature_Ok in Hit
          as (blocks & block & store' & features'' & ? & ? & ? & ? & -> & ->).
        assert (store = []) as -> by (destruct store; [reflexivity|discriminate]).
        eapply step_compute; [exact Hov| |eassumption..].
        eapply input_seed; eassumption.
      * apply res_bind_Ok in Hit as (last_feature & Hl & Hit).
        apply compute_feature_Ok in Hit
          as (blocks & block & store' & features'' & ? & ? & ? & ? & -> & ->).
        eapply step_compute; [exact Hov| |eassumption..].
        apply (input_concat self _ i_s i_f sc fc store_c x store last_feature);
          auto.
        intros ->. apply Hnz. reflexivity.
  - apply res_bind_Ok in Hit as (store & Hs & Hit).
    apply res_bind_Ok in Hit as (feature & Hfe & Hit).
    apply compute_feature_Ok in Hit
      as (blocks & block & store' & features'' & ? & ? & ? & ? & -> & ->).
    eapply step_compute; [exact Hov| |eassumption..].
    apply (input_plain self _ i_s i_f store feature); assumption.
Qed.

Lemma step_iteration (self : FocNet R) (st st' : state T) (ev : event) :
  step self st st' ev -> iteration self st = Ok (st', ev).
Proof.
  intros [i_s i_f sc fc store_c Hov Hneeds Hsc Hle
         |i_s i_f features feature dep blocks block store features'
            Hov Hin Hbs Hb Hs Happ]; unfold iteration; rewrite Hov; res_simpl.
  - rewrite Hneeds, Hsc. res_simpl.
    destruct (Z.leb_spec (len store_c) fc); [reflexivity|lia].
  - assert (Hcf : compute_feature self features i_s i_f feature dep
                  = Ok (MkState i_s (i_f + 1) features',
                        Computed (i_s, i_f) block (length store) dep)).
    { unfold compute_feature. rewrite Hbs. res_simpl. rewrite Hb. res_simpl.
      rewrite Hs. res_simpl. rewrite Happ. reflexivity. }
    inversion Hin
      as [store0 feature0 Hneeds Hs0 Hf
         |sc fc store_c x features0 Hneeds Hsc Hlt Hx Hs0 Hseed
         |sc fc store_c x store0 last_feature Hneeds Hsc Hlt Hx Hs0 Hne Hl];
      subst; rewrite Hneeds.
    + rewrite Hs0. res_simpl. rewrite Hf. res_simpl. exact Hcf.
    + rewrite Hsc. res_simpl.
      destruct (Z.leb_spec (len store_c) fc); [lia|].
      rewrite Hx. res_simpl. rewrite Hs0. res_simpl.
      change (len [] =? 0) with true. cbv iota.
      rewrite Hseed. res_simpl. exact Hcf.
    + rewrite Hsc. res_simpl.
      destruct (Z.leb_spec (len store_c) fc); [lia|].
      rewrite Hx. res_simpl. rewrite Hs0. res_simpl.
      destruct (Z.eqb_spec (len store0) 0) as [Hz|Hnz].
      * destruct store0; [congruence|discriminate].
      * rewrite Hl. res_simpl. exact Hcf.
Qed.
End StepFacts.

(** ** Fuel *)

Section FuelFacts.
Context {T R : Type} `{Scalar R} `{Tensor T R}.

Lemma call_loop_more_fuel (self : FocNet R) (fuel k : nat) (st : state T)
    (log : list event) (r : res (state T * list event)) :
  call_loop fuel self st log = Some r ->
  call_loop (fuel + k) self st log = Some r.
Proof.
  revert st log. induction fuel as [|fuel IH]; intros st log.
  - cbn [call_loop Nat.add].
    destruct (loop_condition self st) as [[|]|e] eqn:Hc; try discriminate.
    + destruct k; cbn [call_loop]; rewrite Hc; intros E; exact E.
    + destruct k; cbn [call_loop]; rewrite Hc; intros E; exact E.
  - cbn [Nat.add call_loop].
    destruct (loop_condition self st) as [[|]|e]; auto.
    destruct (iteration self st) as [[st' ev]|e]; auto.
Qed.

Lemma call_loop_less_fuel (self : FocNet R) (fuel k : nat) (st : state T)
    (log : list event) :
  call_loop fuel self st log = None ->
  call_loop (fuel - k) self st log = None.
Proof.
  intros Hnone.
  destruct (call_loop (fuel - k) self st log) as [r|] eqn:E; [|reflexivity].
  apply (call_loop_more_fuel self (fuel - k) (fuel - (fuel - k))) in E.
  replace (fuel - k + (fuel - (fuel - k)))%nat with fuel in E by lia.
  congruence.
Qed.

Lemma traverse_more_fuel (self : FocNet R) (fuel k : nat) (inputs : T)
    (r : res (state T * list event)) :
  traverse fuel self inputs = Some r -> traverse (fuel + k) self inputs = Some r.
Proof.
  unfold traverse. destruct (initial_state self inputs); [|auto].
  apply call_loop_more_fuel.
Qed.

Lemma traverse_less_fuel (self : FocNet R) (fuel k : nat) (inputs : T) :
  traverse fuel self inputs = None -> traverse (fuel - k) self inputs = None.
Proof.
  unfold traverse. destruct (initial_state self inputs); [|discriminate].
  apply call_loop_less_fuel.
Qed.

(** The log only grows, by one event per iteration. *)
Lemma call_loop_log (self : FocNet R) (fuel : nat) (st st' : state T)
    (log log' : list event) :
  call_loop fuel self st log = Some (Ok (st', log')) ->
  loop_condition self st' = Ok false /\
  exists new : list event, log' = log ++ new /\ (length new <= fuel)%nat.
Proof.
  revert st log. induction fuel as [|fuel IH]; intros st log; cbn [call_loop].
  - destruct (loop_condition self st) as [[|]|e] eqn:Hc; try discriminate.
    intros [= <- <-]. split; [exact Hc|]. exists []. rewrite app_nil_r. auto.
  - destruct (loop_condition self st) as [[|]|e] eqn:Hc; try discriminate.
    + destruct (iteration self st) as [[st1 ev]|e]; [|discriminate].
      intros Hloop. apply IH in Hloop as (Hend & new & -> & Hlen).
      split; [exact Hend|]. exists (ev :: new).
      rewrite <- app_assoc. split; [reflexivity|]. simpl. lia.
    + intros [= <- <-]. split; [exact Hc|]. exists []. rewrite app_nil_r.
      split; [reflexivity|]. simpl. lia.
Qed.
End FuelFacts.

(** ** The traversal of the default model *)

Section DefaultRun.
Context {T R : Type} `{Scalar R} `{Tensor T R}.
Variable inputs : T.
Variable b : R.

Lemma default_summary :
  summary (traverse 55 (default_model b) inputs)
  = Some (0, 5, [6; 12; 12; 8]%nat, default_trace).
Proof. vm_compute. reflexivity. Qed.

Lemma default_needs_more_than_54 :
  traverse 54 (default_model b) inputs = None.
Proof. vm_compute. reflexivity. Qed.

Lemma default_final_state :
  exists (st : state T) (s0 s1 s2 s3 : list T),
    traverse 55 (default_model b) inputs = Some (Ok (st, default_trace)) /\
    i_scale st = 0 /\ i_feature st = 5 /\
    features_per_scale st = [s0; s1; s2; s3] /\
    length s0 = 6%nat /\ length s1 = 12%nat /\ length s2 = 12%nat /\
    length s3 = 8%nat.
Proof.
  pose proof default_summary as Hsum.
  destruct (traverse 55 (default_model b) inputs) as [[[st log]|e]|];
    try discriminate.
  cbn [summary] in Hsum. injection Hsum as Hs Hf Hl ->.
  destruct (features_per_scale st) as [|s0 [|s1 [|s2 [|s3 [|s4 rest]]]]] eqn:Hfs;
    try discriminate.
  injection Hl as Hl0 Hl1 Hl2 Hl3.
  exists st, s0, s1, s2, s3. repeat split; first [assumption|reflexivity].
Qed.

Lemma default_seeds :
  match traverse 55 (default_model b) inputs with
  | Some (Ok (st, _)) => seeds_are_resampled inputs st
  | _ => False
  end.
Proof. vm_compute. repeat split. Qed.
End DefaultRun.

(** C6: for the default configuration, whatever the tensor primitives, the
    input and beta are, the loop reaches the terminal condition (scale 0,
    step 5 = n_convs_per_scale[0]) after exactly 55 iterations (34 block
    calls and 21 jumps): 55 iterations suffice, fewer do not, and more fuel
    changes nothing. *)
Theorem default_scheduler_terminates (T R : Type) (SR : Scalar R) (TR : Tensor T R)
    (inputs : T) (b : R) :
  (exists (st : state T) (log : list event),
     traverse 55 (default_model b) inputs = Some (Ok (st, log)) /\
     loop_condition (default_model b) st = Ok false /\
     i_scale st = 0 /\
     subscript (n_convs_per_scale (default_model b)) 0 = Ok (i_feature st) /\
     length log = 55%nat /\
     length (blocks_called log) = 34%nat /\
     log = default_trace) /\
  (forall k : nat, traverse (54 - k) (default_model b) inputs = None) /\
  (forall k : nat,
     traverse (55 + k) (default_model b) inputs
     = traverse 55 (default_model b) inputs).
Proof.
  destruct (default_final_state inputs b)
    as (st & s0 & s1 & s2 & s3 & Htr & Hs & Hf & _).
  split; [|split].
  - exists st, default_trace. split; [exact Htr|].
    split.
    { unfold traverse in Htr.
      destruct (initial_state (default_model b) inputs); [|discriminate Htr].
      apply call_loop_log in Htr as [Hend _]. exact Hend. }
    rewrite Hs, Hf. repeat split; reflexivity.
  - intros k. apply traverse_less_fuel, default_needs_more_than_54.
  - intros k. rewrite Htr. apply traverse_more_fuel. exact Htr.
Qed.

(** C8: for the default configuration, when the loop ends the store of
    scale 0 holds n_convs_per_scale[0] + 1 = 6 features, so the feature at
    index n_convs_per_scale[0] is the last one (index -1), and the output of
    [call] is the final convolution applied to exactly that feature. *)
Theorem default_terminal_feature (T R : Type) (SR : Scalar R) (TR : Tensor T R)
    (inputs : T) (b : R) :
  exists (st : state T) (log : list event) (store : list T) (n0 : Z) (x : T),
    traverse 55 (default_model b) inputs = Some (Ok (st, log)) /\
    subscript (features_per_scale st) 0 = Ok store /\
    subscript (n_convs_per_scale (default_model b)) 0 = Ok n0 /\
    len store = n0 + 1 /\
    subscript store n0 = Ok x /\
    subscript store (-1) = Ok x /\
    call 55 (default_model b) inputs = Some (Ok (final_conv x)).
Proof.
  destruct (default_final_state inputs b)
    as (st & s0 & s1 & s2 & s3 & Htr & Hs & Hf & Hfs & Hl0 & _).
  destruct s0 as [|a0 [|a1 [|a2 [|a3 [|a4 [|a5 [|a6 rest]]]]]]];
    try discriminate Hl0.
  exists st, default_trace, [a0; a1; a2; a3; a4; a5], 5, a5.
  split; [exact Htr|].
  split; [rewrite Hfs; reflexivity|].
  repeat split.
  unfold call. rewrite Htr. unfold final_projection. rewrite Hfs. reflexivity.
Qed.

(** ** The stores are append-only *)

Lemma append_at_Ok {A : Type} (ls ls' : list (list A)) (i : Z) (x : A) :
  append_at ls i x = Ok ls' ->
  exists (n : nat) (l : list A),
    py_norm (length ls) i = Some n /\ ls !! n = Some l /\
    ls' = <[n := l ++ [x]]> ls.
Proof.
  unfold append_at. destruct (py_norm (length ls) i) as [n|] eqn:Hn; [|discriminate].
  intros [= <-]. pose proof (py_norm_Some _ _ _ Hn) as Hlt.
  destruct (lookup_lt_is_Some_2 ls n Hlt) as [l Hl].
  exists n, l. repeat split; [exact Hl|].
  apply list_eq. intros j. rewrite list_lookup_alter.
  destruct (decide (j = n)) as [->|Hne].
  - rewrite list_lookup_insert_eq by exact Hlt.
    rewrite decide_True by reflexivity. rewrite Hl. reflexivity.
  - rewrite list_lookup_insert_ne by congruence.
    rewrite decide_False by congruence. reflexivity.
Qed.

Lemma append_at_prefix {A : Type} (ls ls' : list (list A)) (i : Z) (x : A) :
  append_at ls i x = Ok ls' -> Forall2 prefix ls ls'.
Proof.
  intros (n & l & _ & Hl & ->)%append_at_Ok.
  apply Forall2_same_length_lookup. split.
  - rewrite length_insert. reflexivity.
  - intros j a c Ha Hc.
    destruct (decide (j = n)) as [->|Hne].
    + rewrite list_lookup_insert_eq in Hc by (eapply lookup_lt_Some; eauto).
      injection Hc as <-. rewrite Hl in Ha. injection Ha as <-.
      apply prefix_app_r. reflexivity.
    + rewrite list_lookup_insert_ne in Hc by congruence.
      rewrite Ha in Hc. injection Hc as <-. reflexivity.
Qed.

Section AppendOnly.
Context {T R : Type} `{Scalar R} `{Tensor T R}.

Lemma input_feature_prefix (self : FocNet R) (features features' : list (list T))
    (i_s i_f : Z) (feature : T) (dep : option (coord * nat)) :
  input_feature self features i_s i_f features' feature dep ->
  Forall2 prefix features features'.
Proof.
  intros [| |]; try reflexivity.
  eapply append_at_prefix; eassumption.
Qed.

(** One iteration changes the stores by appending only. *)
Lemma step_prefix (self : FocNet R) (st st' : state T) (ev : event) :
  step self st st' ev ->
  Forall2 prefix (features_per_scale st) (features_per_scale st').
Proof.
  intros [| i_s i_f features feature dep blocks block store features'
            _ Hin _ _ _ Happ]; cbn [features_per_scale].
  - reflexivity.
  - etransitivity.
    + eapply input_feature_prefix; eassumption.
    + eapply append_at_prefix; eassumption.
Qed.

Lemma run_for_prefix (self : FocNet R) (k : nat) (st stk : state T) :
  run_for k self st = Ok stk ->
  Forall2 prefix (features_per_scale st) (features_per_scale stk).
Proof.
  revert st. induction k as [|k IH]; intros st; cbn [run_for].
  - intros [= <-]. reflexivity.
  - destruct (loop_condition self st) as [[|]|e]; try discriminate.
    + destruct (iteration self st) as [[st1 ev]|e] eqn:Hit; [|discriminate].
      intros Hk. etransitivity; [|apply IH; exact Hk].
      eapply step_prefix, iteration_step; eassumption.
    + intros [= <-]. reflexivity.
Qed.

(** Along a traversal that ends, the state after any number of iterations
    exists, and its stores are prefixes of the final stores. *)
Lemma call_loop_run_for (self : FocNet R) (fuel : nat) (st st' : state T)
    (log log' : list event) (k : nat) :
  call_loop fuel self st log = Some (Ok (st', log')) ->
  exists stk : state T,
    run_for k self st = Ok stk /\
    Forall2 prefix (features_per_scale stk) (features_per_scale st').
Proof.
  revert st log k. induction fuel as [|fuel IH]; intros st log k; cbn [call_loop].
  - destruct (loop_condition self st) as [[|]|e] eqn:Hc; try discriminate.
    intros [= <- <-]. exists st. split; [|reflexivity].
    destruct k; cbn [run_for]; [reflexivity|]. rewrite Hc. reflexivity.
  - destruct (loop_condition self st) as [[|]|e] eqn:Hc; try discriminate.
    + destruct (iteration self st) as [[st1 ev]|e] eqn:Hit; [|discriminate].
      intros Hloop. destruct k as [|k].
      * exists st. split; [reflexivity|].
        etransitivity.
        -- eapply step_prefix, iteration_step; eassumption.
        -- destruct (IH st1 _ 0%nat Hloop) as (st0 & [= <-] & Hp). exact Hp.
      * destruct (IH st1 _ k Hloop) as (stk & Hk & Hp).
        exists stk. cbn [run_for]. rewrite Hc, Hit. auto.
    + intros [= <- <-]. exists st. split; [|reflexivity].
      destruct k; cbn [run_for]; [reflexivity|]. rewrite Hc. reflexivity.
Qed.
End AppendOnly.

(** C7: in a forward pass of the default model every block
    [conv_blocks_per_scale[scale][step]] is called exactly once (the blocks
    called are a duplicate-free list of all 34 blocks, each called at its own
    coordinate), and the stores only grow: the stores after any number of
    iterations are prefixes of the final stores, so a feature once stored is
    the one every later lookup reads. *)
Theorem default_blocks_called_once (T R : Type) (SR : Scalar R) (TR : Tensor T R)
    (inputs : T) (b : R) :
  exists (st0 st : state T) (log : list event),
    initial_state (default_model b) inputs = Ok st0 /\
    traverse 55 (default_model b) inputs = Some (Ok (st, log)) /\
    NoDup (blocks_called log) /\
    blocks_called log ≡ₚ List.concat (conv_blocks_per_scale (default_model b)) /\
    Forall (fun ev => match ev with
                      | Computed (s, f) (bs, bf) _ _ =>
                          s = Z.of_nat bs /\ f = Z.of_nat bf
                      | Jumped _ _ => True
                      end) log /\
    map length (features_per_scale st) = [6; 12; 12; 8]%nat /\
    (forall k : nat,
       exists stk : state T,
         run_for k (default_model b) st0 = Ok stk /\
         Forall2 prefix (features_per_scale stk) (features_per_scale st)).
Proof.
  destruct (default_final_state inputs b)
    as (st & s0 & s1 & s2 & s3 & Htr & Hs & Hf & Hfs & Hl0 & Hl1 & Hl2 & Hl3).
  assert (Hnd : NoDup (blocks_called default_trace)).
  { apply (bool_decide_unpack _). vm_compute. exact I. }
  pose proof Htr as Hloop. unfold traverse in Hloop.
  destruct (initial_state (default_model b) inputs) as [st0|e] eqn:Hinit;
    [|discriminate Hloop].
  exists st0, st, default_trace.
  split; [reflexivity|]. split; [exact Htr|]. split; [exact Hnd|].
  split; [|split; [|split]].
  - apply NoDup_Permutation; [exact Hnd| |].
    + apply (bool_decide_unpack _). vm_compute. exact I.
    + intros block.
      rewrite <- !(elem_of_list_to_set (C := gset block_id)).
      replace (list_to_set (blocks_called default_trace) : gset block_id)
        with (list_to_set (List.concat (conv_blocks_per_scale (default_model b)))
                : gset block_id); [reflexivity|].
      vm_compute. reflexivity.
  - unfold default_trace. repeat constructor.
  - rewrite Hfs. cbn [map]. congruence.
  - intros k. eapply call_loop_run_for. exact Hloop.
Qed.

(** C10: in a forward pass of the default model, whenever the block of
    coordinate (i_scale, i_feature) is called the store of that scale holds
    exactly i_feature + 1 entries, and a dependency read at that moment lies
    inside its store (also for the references to step 11 of scales 1 and 2
    and step 7 of scale 3); every jump is followed by the call of the block
    at its target; no subscript is out of range (the traversal returns); and
    index 0 of each store is the stem at scale 0 and the first resampled
    dependency feature at the other scales. *)
Theorem default_store_offset (T R : Type) (SR : Scalar R) (TR : Tensor T R)
    (inputs : T) (b : R) :
  exists (st : state T) (log : list event),
    traverse 55 (default_model b) inputs = Some (Ok (st, log)) /\
    Forall (fun ev => match ev with
                      | Computed (_, f) _ stored dep =>
                          Z.of_nat stored = f + 1 /\
                          match dep with
                          | Some ((_, fc), n) => 0 <= fc < Z.of_nat n
                          | None => True
                          end
                      | Jumped _ _ => True
                      end) log /\
    jumps_resume log = true /\
    In (Computed (0, 4) (0, 4)%nat 5%nat (Some ((1, 11), 12%nat))) log /\
    In (Computed (1, 10) (1, 10)%nat 11%nat (Some ((2, 11), 12%nat))) log /\
    In (Computed (2, 10) (2, 10)%nat 11%nat (Some ((3, 7), 8%nat))) log /\
    seeds_are_resampled inputs st.
Proof.
  destruct (default_final_state inputs b) as (st & s0 & s1 & s2 & s3 & Htr & _).
  pose proof (default_seeds inputs b) as Hseeds. rewrite Htr in Hseeds.
  exists st, default_trace.
  split; [exact Htr|]. split; [|split; [|split; [|split; [|split]]]].
  - unfold default_trace. repeat constructor; lia.
  - vm_compute. reflexivity.
  - unfold default_trace. cbn [In]. repeat (first [left; reflexivity | right]).
  - unfold default_trace. cbn [In]. repeat (first [left; reflexivity | right]).
  - unfold default_trace. cbn [In]. repeat (first [left; reflexivity | right]).
  - exact Hseeds.
Qed.

(** ** Step 0 *)

Lemma subscript_append_at {A : Type} (ls ls' : list (list A)) (i : Z) (x : A) :
  append_at ls i x = Ok ls' ->
  exists l : list A, subscript ls i = Ok l /\ subscript ls' i = Ok (l ++ [x]).
Proof.
  intros (n & l & Hn & Hl & ->)%append_at_Ok.
  exists l. unfold subscript, py_index. rewrite length_insert, Hn, Hl.
  rewrite list_lookup_insert_eq by (eapply lookup_lt_Some; eauto).
  split; reflexivity.
Qed.

Section StepZero.
Context {T R : Type} `{Scalar R} `{Tensor T R}.

(** When the block is called its store is not empty. *)
Lemma input_feature_store (self : FocNet R) (features features' : list (list T))
    (i_s i_f : Z) (feature : T) (dep : option (coord * nat)) (store : list T) :
  input_feature self features i_s i_f features' feature dep ->
  subscript features' i_s = Ok store ->
  store <> [].
Proof.
  intros [store0 feature0 _ Hs Hf
         |sc fc store_c x features0 _ _ _ _ _ Hseed
         |sc fc store_c x store0 last_feature _ _ _ _ Hs Hne _] Hstore.
  - rewrite Hs in Hstore. injection Hstore as <-.
    eapply subscript_nonempty; eassumption.
  - apply subscript_append_at in Hseed as (l & _ & Hl).
    rewrite Hl in Hstore. injection Hstore as <-.
    destruct l; discriminate.
  - rewrite Hs in Hstore. injection Hstore as <-. exact Hne.
Qed.

(** C1 (as amended): for step 0 the weights are the one-element list
    [[beta]], and an iteration that calls the block of step 0 of a scale
    stores the block's output plus beta times the first feature of that
    scale's store. *)
Theorem step_zero_adds_first_feature (self : FocNet R) (st st' : state T)
    (s : Z) (block : block_id) (stored : nat) (dep : option (coord * nat))
    (Hit : iteration self st = Ok (st', Computed (s, 0) block stored dep)) :
  residual_weights_computation 0 (beta self) = [beta self] /\
  exists (x0 : T) (rest : list T) (feature : T),
    stored = length (x0 :: rest) /\
    subscript (features_per_scale st') s
    = Ok ((x0 :: rest)
            ++ [tadd (FocConvBlock_call block feature) (tscale (beta self) x0)]).
Proof.
  split; [apply rwc_small; lia|].
  apply iteration_step in Hit.
  inversion Hit as [|i_s i_f features feature dep0 blocks block0 store features'
                      Hov Hin Hbs Hb Hs Happ]; subst.
  pose proof (input_feature_store _ _ _ _ _ _ _ _ Hin Hs) as Hne.
  destruct store as [|x0 rest]; [congruence|].
  exists x0, rest, feature. split; [reflexivity|].
  apply subscript_append_at in Happ as (l & Hl & Hl').
  rewrite Hs in Hl. injection Hl as <-.
  cbn [features_per_scale]. rewrite Hl'.
  rewrite rwc_small by lia. reflexivity.
Qed.
End StepZero.

Lemma step_zero_adds_first_feature_witness :
  iteration (default_model (1 # 5)%Q) pixel_start
    = Ok (pixel_after_one, Computed (0, 0) (0, 0)%nat 1%nat None) /\
  exists (x0 : list Q) (rest : list (list Q)) (feature : list Q),
    1%nat = length (x0 :: rest) /\
    subscript (features_per_scale pixel_after_one) 0
    = Ok ((x0 :: rest)
            ++ [tadd (FocConvBlock_call (0, 0)%nat feature) (tscale (1 # 5)%Q x0)]).
Proof.
  assert (Hit : iteration (default_model (1 # 5)%Q) pixel_start
                = Ok (pixel_after_one, Computed (0, 0) (0, 0)%nat 1%nat None))
    by (vm_compute; reflexivity).
  split; [exact Hit|].
  exact (proj2 (step_zero_adds_first_feature _ _ _ _ _ _ _ Hit)).
Defined.

(** For step 0 the weights are not empty, and the feature stored at step 0
    is not the raw output of the block: on the one-pixel image [[1]] with
    beta = 1/5 the block of coordinate (0, 0) returns [[1]] and [[6/5]] is
    stored. *)
Lemma step_zero_not_raw_block_output :
  residual_weights_computation 0 (1 # 5)%Q <> [] /\
  exists (st' : state (list Q)) (store : list (list Q)) (x : list Q),
    initial_state (default_model (1 # 5)%Q) [1%Q] = Ok pixel_start /\
    iteration (default_model (1 # 5)%Q) pixel_start
      = Ok (st', Computed (0, 0) (0, 0)%nat 1%nat None) /\
    subscript (features_per_scale st') 0 = Ok store /\
    subscript store (-1) = Ok x /\
    FocConvBlock_call (0, 0)%nat [1%Q] = [1%Q] /\
    x = [(6 # 5)%Q] /\
    x <> FocConvBlock_call (0, 0)%nat [1%Q].
Proof.
  split; [vm_compute; discriminate|].
  exists pixel_after_one, [[1%Q]; [(6 # 5)%Q]], [(6 # 5)%Q].
  repeat split; try (vm_compute; reflexivity).
  vm_compute. discriminate.
Qed.

(** ** Construction *)

Lemma make_conv_blocks_lengths (n_convs : list Z) :
  map length (make_conv_blocks n_convs) = map Z.to_nat n_convs.
Proof.
  unfold make_conv_blocks.
  assert (Hgen : forall (g : nat -> nat),
             map length (imap (fun (s : nat) (n : Z) =>
                                 map (fun j : nat => (g s, j)) (seq 0 (Z.to_nat n)))
                              n_convs)
             = map Z.to_nat n_convs).
  { induction n_convs as [|n l IH]; intros g; [reflexivity|].
    cbn [imap map]. rewrite length_map, length_seq. f_equal.
    apply (IH (fun s => g (S s))). }
  apply (Hgen (fun s => s)).
Qed.

Section Construction.
Context `{Keras}.

Lemma new_blocks_accepted (n_filters kernel_size : Z) (names : list block_id) :
  Conv2D_accepts n_filters kernel_size = true ->
  new_blocks n_filters kernel_size names = Built names.
Proof.
  intros Hacc. induction names as [|name names IH]; [reflexivity|].
  cbn [new_blocks]. unfold FocConvBlock_init, Conv2D_new. rewrite Hacc, IH.
  reflexivity.
Qed.

Lemma new_conv_blocks_accepted (n_filters kernel_size : Z) (s : nat) (n_convs : list Z) :
  Conv2D_accepts n_filters kernel_size = true ->
  new_conv_blocks n_filters kernel_size s n_convs
  = Built (imap (fun (i : nat) (n : Z) =>
                   map (fun j : nat => ((s + i)%nat, j)) (seq 0 (Z.to_nat n)))
                n_convs).
Proof.
  intros Hacc. revert s. induction n_convs as [|n n_convs IH]; intros s;
    [reflexivity|].
  cbn [new_conv_blocks imap]. rewrite new_blocks_accepted by exact Hacc.
  rewrite IH. unfold mbind, built_bind. cbv beta iota.
  rewrite Nat.add_0_r. do 2 f_equal.
  apply imap_ext. intros i x _. cbn.
  apply map_ext. intros j. f_equal. lia.
Qed.
End Construction.

(** The traversal of the cyclic configuration never ends: the scheduler
    jumps between (0, 0) and (1, 0) forever. *)
Lemma cyclic_traversal_diverges (fuel : nat) :
  @traverse unit Q _ (unit_tensor Q) fuel (construct cyclic_config) tt = None.
Proof.
  unfold traverse.
  change (initial_state (construct cyclic_config) tt)
    with (Ok (MkState 0 0 [[tt]; []])).
  cbv iota.
  assert (Hboth : forall log,
             @call_loop unit Q _ (unit_tensor Q) fuel (construct cyclic_config)
               (MkState 0 0 [[tt]; []]) log = None /\
             @call_loop unit Q _ (unit_tensor Q) fuel (construct cyclic_config)
               (MkState 1 0 [[tt]; []]) log = None).
  { induction fuel as [|fuel IH]; intros log.
    - split; reflexivity.
    - destruct (IH (log ++ [Jumped (0, 0) (1, 0)])) as [_ IHb].
      destruct (IH (log ++ [Jumped (1, 0) (0, 0)])) as [IHa _].
      split.
      + cbn [call_loop].
        change (loop_condition (construct cyclic_config) (MkState 0 0 [[tt]; []]))
          with (@Ok bool true).
        change (iteration (construct cyclic_config) (MkState 0 0 [[tt]; []]))
          with (Ok (MkState 1 0 [[tt]; []], Jumped (0, 0) (1, 0))).
        exact IHb.
      + cbn [call_loop].
        change (loop_condition (construct cyclic_config) (MkState 1 0 [[tt]; []]))
          with (@Ok bool true).
        change (iteration (construct cyclic_config) (MkState 1 0 [[tt]; []]))
          with (Ok (MkState 0 0 [[tt]; []], Jumped (1, 0) (0, 0))).
        exact IHa. }
  apply Hboth.
Qed.

(** C2 (as amended): construction performs none of the configuration
    checks.  Its outcome depends on two arguments only, through Keras: it
    returns the model when [Conv2D] accepts [n_filters] with [kernel_size]
    (and the constants of the final convolution), whatever [n_scales],
    [n_convs_per_scale] and [communications_between_scales] are, and it fails
    with the error of the layer constructor otherwise.  A malformed
    configuration shows when the model is called: a configuration with
    mismatched lengths raises IndexError there, and one with a cyclic
    dependency graph never returns. *)
Theorem init_checks_no_configuration (K : Keras) (R : Type) (c : config R) :
  FocNet_init c
  = (if Conv2D_accepts (cfg_n_filters c) (cfg_kernel_size c) && Conv2D_accepts 1 1
     then Built (construct c) else Rejected ValueError) /\
  (spec_config_checks mismatched_config = false /\
   call 1 (construct mismatched_config) [1%Q] = Some (Raise IndexError)) /\
  (spec_acyclic 2 cyclic_config = Some false /\
   forall fuel : nat,
     @traverse unit Q _ (unit_tensor Q) fuel (construct cyclic_config) tt = None).
Proof.
  split; [|split; [split|split]].
  - unfold FocNet_init, Conv2D_new.
    destruct (Conv2D_accepts (cfg_n_filters c) (cfg_kernel_size c)) eqn:Hacc;
      [|reflexivity].
    unfold mbind, built_bind. cbv beta iota.
    rewrite (new_conv_blocks_accepted _ _ 0 _ Hacc).
    destruct (Conv2D_accepts 1 1); reflexivity.
  - vm_compute. reflexivity.
  - vm_compute. reflexivity.
  - vm_compute. reflexivity.
  - exact cyclic_traversal_diverges.
Qed.

(** A configuration that fails the checks of the specification (both
    lengths disagree with [n_scales]) is accepted by the constructor, with a
    Keras that accepts the positive [n_filters] and [kernel_size] of the
    source's defaults; the error only shows when the model is called. *)
Lemma init_accepts_mismatched_config :
  spec_config_checks mismatched_config = false /\
  len (cfg_n_convs_per_scale mismatched_config) <> cfg_n_scales mismatched_config /\
  len (cfg_communications_between_scales mismatched_config)
    <> cfg_n_scales mismatched_config - 1 /\
  @FocNet_init keras_positive Q mismatched_config
    = Built (construct mismatched_config) /\
  call 1 (construct mismatched_config) [1%Q] = Some (Raise IndexError).
Proof.
  repeat split; try (vm_compute; reflexivity); vm_compute; discriminate.
Qed.

(** ** The traversal does not depend on the tensors *)

Lemma res_rel_bind {A1 A2 B1 B2 : Type} (P : A1 -> A2 -> Prop) (Q : B1 -> B2 -> Prop)
    (m1 : res A1) (m2 : res A2) (f1 : A1 -> res B1) (f2 : A2 -> res B2) :
  res_rel P m1 m2 ->
  (forall a1 a2, P a1 a2 -> res_rel Q (f1 a1) (f2 a2)) ->
  res_rel Q (m1 ≫= f1) (m2 ≫= f2).
Proof.
  intros [a1 a2 HP|e] Hf.
  - apply Hf. exact HP.
  - constructor.
Qed.

Lemma subscript_same_length {A B : Type} (l : list A) (k : list B) (i : Z) :
  length l = length k ->
  res_rel (fun _ _ => True) (subscript l i) (subscript k i).
Proof.
  intros Hlen. unfold subscript, py_index. rewrite <- Hlen.
  destruct (py_norm (length l) i) as [n|] eqn:Hn; [|constructor].
  pose proof (py_norm_Some _ _ _ Hn) as Hlt.
  destruct (lookup_lt_is_Some_2 l n Hlt) as [x ->].
  destruct (lookup_lt_is_Some_2 k n ltac:(lia)) as [y ->].
  constructor. exact I.
Qed.

Lemma subscript_same_lengths {A B : Type} (ls : list (list A)) (ks : list (list B)) (i : Z) :
  same_lengths ls ks ->
  res_rel (fun l k => length l = length k) (subscript ls i) (subscript ks i).
Proof.
  intros Hsame. unfold subscript, py_index.
  rewrite <- (Forall2_length _ _ _ Hsame).
  destruct (py_norm (length ls) i) as [n|] eqn:Hn; [|constructor].
  pose proof (py_norm_Some _ _ _ Hn) as Hlt.
  destruct (lookup_lt_is_Some_2 ls n Hlt) as [l Hl].
  destruct (Forall2_lookup_l _ _ _ _ _ Hsame Hl) as (k & Hk & Hlk).
  rewrite Hl, Hk. constructor. exact Hlk.
Qed.

Lemma append_at_same_lengths {A B : Type} (ls : list (list A)) (ks : list (list B))
    (i : Z) (x : A) (y : B) :
  same_lengths ls ks ->
  res_rel same_lengths (append_at ls i x) (append_at ks i y).
Proof.
  intros Hsame. unfold append_at.
  rewrite <- (Forall2_length _ _ _ Hsame).
  destruct (py_norm (length ls) i) as [n|]; [|constructor].
  constructor. apply Forall2_alter; [exact Hsame|].
  intros l k _ _ Hlen. rewrite !length_app, Hlen. reflexivity.
Qed.

Section Simulation.
Context {T1 T2 R : Type} {SR : Scalar R}.
Variable ops1 : Tensor T1 R.
Variable ops2 : Tensor T2 R.
Variable self : FocNet R.

Lemma compute_feature_sim (fs1 : list (list T1)) (fs2 : list (list T2))
    (i_s i_f : Z) (x1 : T1) (x2 : T2) (dep : option (coord * nat)) :
  same_lengths fs1 fs2 ->
  res_rel same_step
    (@compute_feature T1 R SR ops1 self fs1 i_s i_f x1 dep)
    (@compute_feature T2 R SR ops2 self fs2 i_s i_f x2 dep).
Proof.
  intros Hsame. unfold compute_feature.
  destruct (subscript (conv_blocks_per_scale self) i_s) as [blocks|e];
    [|constructor].
  res_simpl.
  destruct (subscript blocks i_f) as [block|e]; [|constructor].
  res_simpl.
  eapply res_rel_bind; [apply subscript_same_lengths; exact Hsame|].
  intros store1 store2 Hlen.
  eapply res_rel_bind; [apply append_at_same_lengths; exact Hsame|].
  intros fs1' fs2' Hsame'.
  constructor. split; [|cbn; rewrite Hlen; reflexivity].
  repeat split; assumption.
Qed.

Lemma overflow_check_sim (st1 : state T1) (st2 : state T2) :
  same_position st1 st2 ->
  res_rel eq (overflow_check self st1) (overflow_check self st2).
Proof.
  intros (Hs & Hf & Hsame). unfold overflow_check. rewrite <- Hs, <- Hf.
  destruct (subscript (n_convs_per_scale self) (i_scale st1)) as [n_here|e];
    [|constructor].
  res_simpl.
  destruct (n_here <=? i_feature st1); [|constructor; reflexivity].
  eapply res_rel_bind; [apply subscript_same_lengths; exact Hsame|].
  intros store1 store2 Hlen. constructor. unfold len. rewrite Hlen. reflexivity.
Qed.

(** One iteration from two states at the same position: both raise, or both
    continue to states at the same position with the same event. *)
Lemma iteration_sim (st1 : state T1) (st2 : state T2) :
  same_position st1 st2 ->
  res_rel same_step
    (@iteration T1 R SR ops1 self st1) (@iteration T2 R SR ops2 self st2).
Proof.
  intros Hpos. pose proof Hpos as (Hs & Hf & Hsame). unfold iteration.
  eapply res_rel_bind; [apply overflow_check_sim; exact Hpos|].
  intros [i_s i_f] ? <-.
  destruct (needs_get self (i_s, i_f)) as [[sc fc]|].
  - eapply res_rel_bind; [apply subscript_same_lengths; exact Hsame|].
    intros store_c1 store_c2 Hlenc. unfold len. rewrite <- Hlenc.
    destruct (Z.of_nat (length store_c1) <=? fc).
    + constructor. split; [|reflexivity]. repeat split; assumption.
    + eapply res_rel_bind; [apply subscript_same_length; exact Hlenc|].
      intros x1 x2 _.
      eapply res_rel_bind; [apply subscript_same_lengths; exact Hsame|].
      intros store1 store2 Hlen. rewrite <- Hlen.
      destruct (Z.of_nat (length store1) =? 0).
      * eapply res_rel_bind; [apply append_at_same_lengths; exact Hsame|].
        intros fs1' fs2' Hsame'. apply compute_feature_sim. exact Hsame'.
      * eapply res_rel_bind; [apply subscript_same_length; exact Hlen|].
        intros y1 y2 _. apply compute_feature_sim. exact Hsame.
  - eapply res_rel_bind; [apply subscript_same_lengths; exact Hsame|].
    intros store1 store2 Hlen.
    eapply res_rel_bind; [apply subscript_same_length; exact Hlen|].
    intros y1 y2 _. apply compute_feature_sim. exact Hsame.
Qed.

Lemma loop_condition_sim (st1 : state T1) (st2 : state T2) :
  same_position st1 st2 ->
  loop_condition self st1 = loop_condition self st2.
Proof.
  intros (Hs & Hf & _). unfold loop_condition. rewrite Hs, Hf. reflexivity.
Qed.

Lemma call_loop_sim (fuel : nat) (st1 : state T1) (st2 : state T2)
    (log : list event) :
  same_position st1 st2 ->
  match @call_loop T1 R SR ops1 fuel self st1 log,
        @call_loop T2 R SR ops2 fuel self st2 log with
  | Some r1, Some r2 => res_rel same_run r1 r2
  | None, None => True
  | _, _ => False
  end.
Proof.
  revert st1 st2 log. induction fuel as [|fuel IH]; intros st1 st2 log Hpos;
    cbn [call_loop]; rewrite <- (loop_condition_sim st1 st2 Hpos);
    destruct (loop_condition self st1) as [[|]|e];
    try (constructor; split; [exact Hpos|reflexivity]); try constructor.
  destruct (iteration_sim st1 st2 Hpos) as [[st1' ev1] [st2' ev2] [Hpos' Hev]|e];
    [|constructor].
  cbn in Hpos', Hev. subst ev2. apply IH. exact Hpos'.
Qed.

Lemma initial_state_sim (x1 : T1) (x2 : T2) :
  res_rel same_position
    (@initial_state T1 R ops1 self x1) (@initial_state T2 R ops2 self x2).
Proof.
  unfold initial_state.
  eapply res_rel_bind.
  - apply append_at_same_lengths. unfold same_lengths.
    apply Forall2_replicate. reflexivity.
  - intros fs1 fs2 Hsame. constructor. repeat split. exact Hsame.
Qed.

Lemma traverse_sim (fuel : nat) (x1 : T1) (x2 : T2) :
  match @traverse T1 R SR ops1 fuel self x1,
        @traverse T2 R SR ops2 fuel self x2 with
  | Some r1, Some r2 => res_rel same_run r1 r2
  | None, None => True
  | _, _ => False
  end.
Proof.
  unfold traverse.
  destruct (initial_state_sim x1 x2) as [st1 st2 Hpos|e]; [|constructor].
  apply call_loop_sim. exact Hpos.
Qed.

Lemma final_projection_sim (st1 : state T1) (st2 : state T2) :
  same_position st1 st2 ->
  res_rel (fun _ _ => True)
    (@final_projection T1 R ops1 self st1) (@final_projection T2 R ops2 self st2).
Proof.
  intros (_ & _ & Hsame). unfold final_projection.
  eapply res_rel_bind; [apply subscript_same_lengths; exact Hsame|].
  intros store1 store2 Hlen.
  destruct (subscript (n_convs_per_scale self) 0) as [n0|e]; [|constructor].
  res_simpl.
  eapply res_rel_bind; [apply subscript_same_length; exact Hlen|].
  intros y1 y2 _. constructor. exact I.
Qed.

(** [call] ends the same way on any two tensor algebras and inputs. *)
Lemma call_sim (fuel : nat) (x1 : T1) (x2 : T2) :
  match @call T1 R SR ops1 fuel self x1, @call T2 R SR ops2 fuel self x2 with
  | Some r1, Some r2 => res_rel (fun _ _ => True) r1 r2
  | None, None => True
  | _, _ => False
  end.
Proof.
  unfold call. pose proof (traverse_sim fuel x1 x2) as Htr.
  destruct (traverse fuel self x1) as [r1|], (traverse fuel self x2) as [r2|];
    try contradiction; [|exact I].
  destruct Htr as [[st1 log1] [st2 log2] [Hpos _]|e]; [|constructor].
  apply final_projection_sim. exact Hpos.
Qed.
End Simulation.

(** ** Dependencies join adjacent scales *)

Lemma record_pair_adjacent (s : Z) (pairs : list (Z * Z)) (g : gmap coord coord)
    (down : bool) :
  0 <= s -> adjacent_map g ->
  adjacent_map (fold_left (record_pair s) pairs (g, down)).1.
Proof.
  intros Hs. revert g down. induction pairs as [|[up dn] pairs IH]; intros g down Hg.
  - exact Hg.
  - cbn [fold_left]. unfold record_pair at 2. apply IH.
    intros a b'. destruct down.
    + destruct (decide (a = (s + 1, dn))) as [->|Hne].
      * rewrite lookup_insert_eq. intros [= <-]. right. cbn. lia.
      * rewrite lookup_insert_ne by congruence. apply Hg.
    + destruct (decide (a = (s, up))) as [->|Hne].
      * rewrite lookup_insert_eq. intros [= <-]. left. cbn. lia.
      * rewrite lookup_insert_ne by congruence. apply Hg.
Qed.

Lemma record_scale_adjacent (l : list (Z * list (Z * Z))) (g : gmap coord coord) :
  Forall (fun e => 0 <= e.1) l -> adjacent_map g ->
  adjacent_map (fold_left record_scale l g).
Proof.
  revert g. induction l as [|[s pairs] l IH]; intros g Hl Hg.
  - exact Hg.
  - cbn [fold_left]. apply Forall_cons_1 in Hl as [Hs Hl].
    apply IH; [exact Hl|]. unfold record_scale.
    apply record_pair_adjacent; assumption.
Qed.

Lemma needs_get_adjacent {R : Type} (c : config R) (a b : coord) :
  needs_get (construct c) a = Some b -> adjacent a b.
Proof.
  unfold needs_get. cbn [construct needs_to_compute]. unfold build_needs_to_compute.
  apply record_scale_adjacent.
  - unfold py_enumerate. apply Forall_forall. intros [s pairs] Hin.
    apply list_elem_of_lookup in Hin as [j Hj].
    rewrite list_lookup_imap in Hj.
    destruct (cfg_communications_between_scales c !! j); [|discriminate].
    injection Hj as <- _. cbn. lia.
  - intros a' b' Hempty. rewrite lookup_empty in Hempty. discriminate.
Qed.

(** ** Halving and doubling *)

Lemma halve_exact (n h : Z) (s : nat) :
  (2 ^ (n - 1) | h) -> Z.of_nat s + 1 <= n - 1 ->
  h / 2 ^ Z.of_nat s = 2 * (h / 2 ^ Z.of_nat (S s)).
Proof.
  intros [q ->] Hs.
  replace (n - 1) with ((n - 1 - Z.of_nat (S s)) + Z.of_nat (S s)) by lia.
  rewrite Z.pow_add_r by lia.
  rewrite Z.mul_assoc, Z.div_mul by (apply Z.pow_nonzero; lia).
  replace (Z.of_nat (S s)) with (Z.of_nat s + 1) by lia.
  rewrite (Z.pow_add_r 2 (Z.of_nat s) 1) by lia.
  replace (q * 2 ^ (n - 1 - (Z.of_nat s + 1)) * (2 ^ Z.of_nat s * 2 ^ 1))
    with (q * 2 ^ (n - 1 - (Z.of_nat s + 1)) * 2 * 2 ^ Z.of_nat s) by ring.
  rewrite Z.div_mul by (apply Z.pow_nonzero; lia). ring.
Qed.

Lemma pool_exact (n h : Z) (s : nat) :
  (2 ^ (n - 1) | h) -> Z.of_nat s + 1 <= n - 1 ->
  (h / 2 ^ Z.of_nat s + 1) / 2 = h / 2 ^ Z.of_nat (S s).
Proof.
  intros Hdiv Hs. rewrite (halve_exact n h s Hdiv Hs).
  rewrite Z.mul_comm, Z.div_add_l by lia.
  change (1 / 2) with 0. lia.
Qed.

(** ** Shapes *)

Lemma subscript_elem {A : Type} (l : list A) (i : Z) (x : A) :
  subscript l i = Ok x -> x ∈ l.
Proof.
  rewrite subscript_Ok. unfold py_index.
  destruct (py_norm (length l) i) as [n|]; [|discriminate].
  apply list_elem_of_lookup_2.
Qed.

Lemma subscript_norm {A : Type} (l : list A) (i : Z) (x : A) :
  subscript l i = Ok x ->
  exists n : nat, py_norm (length l) i = Some n /\ l !! n = Some x.
Proof.
  rewrite subscript_Ok. unfold py_index.
  destruct (py_norm (length l) i) as [n|]; [|discriminate].
  intros Hn. exists n. auto.
Qed.

Lemma py_norm_nonneg_inv (len0 : nat) (i : Z) (n : nat) :
  0 <= i -> py_norm len0 i = Some n -> n = Z.to_nat i.
Proof.
  intros Hi. unfold py_norm. destruct (Z.leb_spec 0 i); [|lia].
  destruct (i <? Z.of_nat len0); [|discriminate]. intros [= <-]. reflexivity.
Qed.

Lemma broadcast_dim_same (a : Z) : broadcast_dim a a = Some a.
Proof. unfold broadcast_dim. rewrite Z.eqb_refl. reflexivity. Qed.

Lemma scale_positive (n h : Z) (s : nat) :
  0 < h -> (2 ^ (n - 1) | h) -> Z.of_nat s <= n - 1 ->
  0 < h / 2 ^ Z.of_nat s.
Proof.
  intros Hpos [q ->] Hs.
  replace (n - 1) with ((n - 1 - Z.of_nat s) + Z.of_nat s) in * by lia.
  rewrite Z.pow_add_r in * by lia.
  rewrite Z.mul_assoc, Z.div_mul by (apply Z.pow_nonzero; lia).
  assert (0 < 2 ^ Z.of_nat s) by (apply Z.pow_pos_nonneg; lia).
  rewrite Z.mul_assoc in Hpos.
  nia.
Qed.

Lemma known_positive (sh : shape) :
  positive_shape sh = true -> known sh = Some sh.
Proof. intros Hpos. unfold known. rewrite Hpos. reflexivity. Qed.

Lemma positive_shape_true (a b cc : Z) :
  0 < a -> 0 < b -> 0 < cc -> positive_shape (MkShape a b cc) = true.
Proof.
  intros Ha Hb Hc. unfold positive_shape. cbn.
  apply andb_true_intro; split; [apply andb_true_intro; split|];
    apply Z.ltb_lt; assumption.
Qed.

Section ShapeFacts.
Context {R : Type} {SR : Scalar R}.
Variable filters : Z.
Variables h w : Z.

Local Abbreviation ops := (shape_tensor R filters).

Lemma tadd_same_shape (sh : shape) (r : R) :
  positive_shape sh = true ->
  @tadd _ R ops (Some sh) (@tscale _ R ops r (Some sh)) = Some sh.
Proof.
  intros Hpos. cbn. rewrite !(known_positive sh Hpos). cbn.
  rewrite (known_positive sh Hpos). cbn.
  rewrite !broadcast_dim_same. cbn. destruct sh; reflexivity.
Qed.

Lemma add_residuals_shape (sh : shape) (weights : list R) (store : list (option shape)) :
  positive_shape sh = true ->
  (forall x, x ∈ store -> x = Some sh) ->
  @add_residuals _ R ops (Some sh) weights store = Some sh.
Proof.
  intros Hpos. unfold add_residuals. revert store.
  induction weights as [|r weights IH]; intros store Hstore; [reflexivity|].
  destruct store as [|x store]; [reflexivity|].
  cbn [py_zip fold_left fst snd].
  rewrite (Hstore x) by (left).
  rewrite (tadd_same_shape sh r Hpos). apply IH.
  intros y Hy. apply Hstore. right. exact Hy.
Qed.

Lemma conv_block_shape (block : block_id) (a b cc : Z) :
  0 < a -> 0 < b -> 0 < cc -> 0 < filters ->
  @FocConvBlock_call _ R ops block (Some (MkShape a b cc))
  = Some (MkShape a b filters).
Proof.
  intros Ha Hb Hc Hf. unfold FocConvBlock_call. cbn.
  rewrite (known_positive _ (positive_shape_true a b cc Ha Hb Hc)). cbn.
  rewrite (known_positive _ (positive_shape_true a b filters Ha Hb Hf)). cbn.
  rewrite (known_positive _ (positive_shape_true a b filters Ha Hb Hf)). cbn.
  apply known_positive, positive_shape_true; assumption.
Qed.

Lemma well_shaped_append (fs fs' : list (list (option shape))) (i : Z) (n : nat)
    (x : option shape) :
  well_shaped filters h w fs ->
  append_at fs i x = Ok fs' ->
  py_norm (length fs) i = Some n ->
  x = scale_shape filters h w n ->
  well_shaped filters h w fs' /\ length fs' = length fs.
Proof.
  intros Hws (n' & l & Hn' & Hl & ->)%append_at_Ok Hn ->.
  rewrite Hn in Hn'. injection Hn' as <-.
  split; [|apply length_insert].
  intros s store y Hs Hy.
  destruct (decide (s = n)) as [->|Hne].
  - rewrite list_lookup_insert_eq in Hs by (eapply lookup_lt_Some; eauto).
    injection Hs as <-.
    apply elem_of_app in Hy as [Hy|Hy].
    + eapply Hws; eassumption.
    + apply list_elem_of_singleton in Hy. exact Hy.
  - rewrite list_lookup_insert_ne in Hs by congruence.
    eapply Hws; eassumption.
Qed.
End ShapeFacts.

Section ShapeInvariant.
Context {R : Type} {SR : Scalar R}.
Variable c : config R.
Variables h w : Z.
Hypothesis Hfilters : 0 < cfg_n_filters c.
Hypothesis Hh0 : 0 < h.
Hypothesis Hw0 : 0 < w.
Hypothesis Hh : (2 ^ (cfg_n_scales c - 1) | h).
Hypothesis Hw : (2 ^ (cfg_n_scales c - 1) | w).

Local Abbreviation ops := (shape_tensor R (cfg_n_filters c)).
Local Abbreviation self := (construct c).
Local Abbreviation shape_at := (scale_shape (cfg_n_filters c) h w).
Local Abbreviation inv := (shape_invariant (cfg_n_scales c) (cfg_n_filters c) h w).

(** The shape of a scale that has a store is positive. *)
Lemma scale_shape_positive (n : nat) :
  (n < Z.to_nat (cfg_n_scales c))%nat ->
  0 < h / 2 ^ Z.of_nat n /\ 0 < w / 2 ^ Z.of_nat n /\
  positive_shape (MkShape (h / 2 ^ Z.of_nat n) (w / 2 ^ Z.of_nat n) (cfg_n_filters c))
  = true.
Proof.
  intros Hn.
  assert (Hha : 0 < h / 2 ^ Z.of_nat n)
    by (apply (scale_positive (cfg_n_scales c)); [assumption..|lia]).
  assert (Hwa : 0 < w / 2 ^ Z.of_nat n)
    by (apply (scale_positive (cfg_n_scales c)); [assumption..|lia]).
  split; [exact Hha|]. split; [exact Hwa|].
  apply positive_shape_true; assumption.
Qed.

(** A feature of an adjacent scale, resampled, has the shape of the scale
    that receives it. *)
Lemma resample_shape (i_s i_f sc fc : Z) (n m len0 : nat) :
  adjacent (i_s, i_f) (sc, fc) ->
  len0 = Z.to_nat (cfg_n_scales c) ->
  py_norm len0 i_s = Some n ->
  py_norm len0 sc = Some m ->
  @resample _ R ops i_s sc (shape_at m) = shape_at n.
Proof.
  intros Hadj -> Hn Hm.
  pose proof (py_norm_Some _ _ _ Hn) as Hn_lt.
  pose proof (py_norm_Some _ _ _ Hm) as Hm_lt.
  destruct (scale_shape_positive n Hn_lt) as (_ & _ & Hpn).
  destruct (scale_shape_positive m Hm_lt) as (_ & _ & Hpm).
  unfold resample, scale_shape.
  destruct Hadj as [[Hsc Hpos]|[Hsc Hpos]]; cbn [fst snd] in Hsc, Hpos.
  - apply py_norm_nonneg_inv in Hn; [|lia].
    apply py_norm_nonneg_inv in Hm; [|lia].
    assert (m = S n) as -> by lia.
    destruct (Z.ltb_spec i_s sc); [|lia]. cbn.
    rewrite (known_positive _ Hpm). cbn.
    rewrite <- !(halve_exact (cfg_n_scales c)) by (assumption || lia).
    apply known_positive. exact Hpn.
  - apply py_norm_nonneg_inv in Hn; [|lia].
    apply py_norm_nonneg_inv in Hm; [|lia].
    assert (n = S m) as -> by lia.
    destruct (Z.ltb_spec i_s sc); [lia|]. cbn.
    rewrite (known_positive _ Hpm). cbn.
    rewrite !(pool_exact (cfg_n_scales c)) by (assumption || lia).
    apply known_positive. exact Hpn.
Qed.

Lemma stored_shape (fs : list (list (option shape))) (i : Z) (n : nat)
    (store : list (option shape)) (j : Z) (x : option shape) :
  well_shaped (cfg_n_filters c) h w fs ->
  py_norm (length fs) i = Some n ->
  subscript fs i = Ok store ->
  subscript store j = Ok x ->
  x = shape_at n.
Proof.
  intros Hws Hn (n' & Hn' & Hstore)%subscript_norm Hx%subscript_elem.
  rewrite Hn in Hn'. injection Hn' as <-.
  eapply Hws; eassumption.
Qed.

Lemma input_feature_shape (fs fs' : list (list (option shape))) (i_s i_f : Z)
    (feature : option shape) (dep : option (coord * nat)) :
  @input_feature _ R ops self fs i_s i_f fs' feature dep ->
  length fs = Z.to_nat (cfg_n_scales c) ->
  well_shaped (cfg_n_filters c) h w fs ->
  exists (n : nat) (cc : Z),
    py_norm (length fs) i_s = Some n /\
    length fs' = length fs /\
    well_shaped (cfg_n_filters c) h w fs' /\
    0 < cc /\
    feature = Some (MkShape (h / 2 ^ Z.of_nat n) (w / 2 ^ Z.of_nat n) cc).
Proof.
  intros [store feature0 _ Hs Hf
         |sc fc store_c x fs0 Hneeds Hsc _ Hx Hs Hseed
         |sc fc store_c x store last_feature Hneeds Hsc _ Hx Hs _ Hl] Hlen Hws.
  - destruct (subscript_norm _ _ _ Hs) as (n & Hn & _).
    exists n, (cfg_n_filters c). repeat split; try assumption.
    apply (stored_shape fs i_s n store (-1)); assumption.
  - destruct (subscript_norm _ _ _ Hs) as (n & Hn & _).
    destruct (subscript_norm _ _ _ Hsc) as (m & Hm & _).
    pose proof (stored_shape fs sc m store_c fc x Hws Hm Hsc Hx) as ->.
    apply needs_get_adjacent in Hneeds.
    pose proof (resample_shape i_s i_f sc fc n m (length fs) Hneeds Hlen Hn Hm) as Hre.
    destruct (well_shaped_append _ _ _ fs fs0 i_s n _ Hws Hseed Hn Hre)
      as [Hws' Hlen'].
    exists n, (cfg_n_filters c). rewrite Hre. repeat split; assumption.
  - destruct (subscript_norm _ _ _ Hs) as (n & Hn & _).
    destruct (subscript_norm _ _ _ Hsc) as (m & Hm & _).
    pose proof (stored_shape fs sc m store_c fc x Hws Hm Hsc Hx) as ->.
    pose proof (stored_shape fs i_s n store i_f last_feature Hws Hn Hs Hl) as ->.
    apply needs_get_adjacent in Hneeds.
    rewrite (resample_shape i_s i_f sc fc n m (length fs) Hneeds Hlen Hn Hm).
    pose proof (py_norm_Some _ _ _ Hn) as Hn_lt. rewrite Hlen in Hn_lt.
    destruct (scale_shape_positive n Hn_lt) as (_ & _ & Hpn).
    exists n, (cfg_n_filters c + cfg_n_filters c).
    repeat split; try assumption; [lia|].
    unfold scale_shape. cbn. rewrite !(known_positive _ Hpn). cbn.
    rewrite !Z.eqb_refl. reflexivity.
Qed.

(** One iteration keeps the invariant. *)
Lemma step_shape (st st' : state (option shape)) (ev : event) :
  @step _ R SR ops self st st' ev -> inv st -> inv st'.
Proof.
  intros [i_s i_f sc fc store_c _ _ _ _
         |i_s i_f fs feature dep blocks block store fs' _ Hin _ _ Hs Happ]
         [Hlen Hws].
  - split; assumption.
  - destruct (input_feature_shape _ _ _ _ _ _ Hin Hlen Hws)
      as (n & cc & Hn & Hlen' & Hws' & Hcc & ->).
    pose proof (py_norm_Some _ _ _ Hn) as Hn_lt. rewrite Hlen in Hn_lt.
    destruct (scale_shape_positive n Hn_lt) as (Hha & Hwa & Hpn).
    rewrite <- Hlen' in Hn.
    assert (Hstore : forall x, x ∈ store -> x = shape_at n).
    { destruct (subscript_norm _ _ _ Hs) as (n' & Hn' & Hst).
      rewrite Hn in Hn'. injection Hn' as <-.
      intros x Hx. eapply Hws'; eassumption. }
    rewrite conv_block_shape in Happ by assumption.
    unfold scale_shape in Hstore.
    rewrite add_residuals_shape in Happ by assumption.
    destruct (well_shaped_append _ _ _ fs fs' i_s n _ Hws' Happ Hn eq_refl)
      as [Hws'' Hlen''].
    split; cbn [features_per_scale]; [congruence|exact Hws''].
Qed.

Lemma call_loop_shape (fuel : nat) (st st' : state (option shape))
    (log log' : list event) :
  @call_loop _ R SR ops fuel self st log = Some (Ok (st', log')) ->
  inv st -> inv st'.
Proof.
  revert st log. induction fuel as [|fuel IH]; intros st log; cbn [call_loop].
  - destruct (loop_condition self st) as [[|]|e]; try discriminate.
    intros [= <- <-] Hinv. exact Hinv.
  - destruct (loop_condition self st) as [[|]|e]; try discriminate.
    + destruct (iteration self st) as [[st1 ev]|e] eqn:Hit; [|discriminate].
      intros Hloop Hinv. eapply IH; [exact Hloop|].
      eapply step_shape; [|exact Hinv].
      apply iteration_step. exact Hit.
    + intros [= <- <-] Hinv. exact Hinv.
Qed.

Lemma initial_state_shape (ch : Z) (st : state (option shape)) :
  0 < ch ->
  @initial_state _ R ops self (Some (MkShape h w ch)) = Ok st -> inv st.
Proof.
  intros Hch. unfold initial_state. intros Hinit.
  apply res_bind_Ok in Hinit as (fs & Happ & [= <-]).
  assert (Hws0 : well_shaped (cfg_n_filters c) h w
                   (replicate (Z.to_nat (n_scales self)) [])).
  { intros s store x Hs Hx.
    apply lookup_replicate in Hs as [-> _]. inversion Hx. }
  destruct (append_at_Ok _ _ _ _ Happ) as (n & l & Hn & _ & _).
  pose proof (py_norm_nonneg_inv _ 0 n ltac:(lia) Hn) as ->.
  destruct (well_shaped_append _ _ _ _ _ _ _ _ Hws0 Happ Hn) as [Hws Hlen].
  - unfold scale_shape. cbn.
    rewrite (known_positive _ (positive_shape_true h w ch Hh0 Hw0 Hch)). cbn.
    rewrite !Z.div_1_r. apply known_positive, positive_shape_true; assumption.
  - split; cbn [features_per_scale]; [|exact Hws].
    rewrite Hlen, length_replicate. reflexivity.
Qed.

Lemma final_projection_shape (st : state (option shape)) (out : option shape) :
  inv st ->
  @final_projection _ R ops self st = Ok out ->
  out = Some (MkShape h w 1).
Proof.
  intros [Hlen Hws] Hfin. unfold final_projection in Hfin.
  apply res_bind_Ok in Hfin as (store & Hs & Hfin).
  apply res_bind_Ok in Hfin as (n0 & _ & Hfin).
  apply res_bind_Ok in Hfin as (x & Hx & [= <-]).
  destruct (subscript_norm _ _ _ Hs) as (n & Hn & _).
  pose proof (stored_shape _ _ _ _ _ _ Hws Hn Hs Hx) as ->.
  pose proof (py_norm_nonneg_inv _ 0 n ltac:(lia) Hn) as ->.
  unfold scale_shape. cbn. rewrite !Z.div_1_r.
  rewrite (known_positive _ (positive_shape_true h w _ Hh0 Hw0 Hfilters)). cbn.
  apply known_positive, positive_shape_true; lia.
Qed.

(** The shape run: whenever [call] returns, it returns a tensor of one
    channel with the height and width of the input, and every feature it
    stored has the shape of its scale. *)
Lemma call_shape (fuel : nat) (ch : Z) (out : option shape) :
  0 < ch ->
  @call _ R SR ops fuel self (Some (MkShape h w ch)) = Some (Ok out) ->
  out = Some (MkShape h w 1) /\
  exists (st : state (option shape)) (log : list event),
    @traverse _ R SR ops fuel self (Some (MkShape h w ch)) = Some (Ok (st, log)) /\
    well_shaped (cfg_n_filters c) h w (features_per_scale st).
Proof.
  intros Hch. unfold call.
  destruct (traverse fuel self _) as [[[st log]|e]|] eqn:Htr; try discriminate.
  intros [= Hfin].
  assert (Hinv : inv st).
  { unfold traverse in Htr.
    destruct (initial_state self _) as [st0|e] eqn:Hinit; [|discriminate Htr].
    eapply call_loop_shape; [exact Htr|].
    eapply initial_state_shape; [exact Hch|exact Hinit]. }
  split.
  - eapply final_projection_shape; eassumption.
  - exists st, log. split; [reflexivity|apply Hinv].
Qed.

(** When the dry run returns, the run on shapes returns the shape of the
    output. *)
Lemma call_shape_of_dry_run (fuel : nat) (ch : Z) :
  0 < ch -> dry_run_returns c fuel ->
  @call _ R SR ops fuel self (Some (MkShape h w ch))
    = Some (Ok (Some (MkShape h w 1))) /\
  exists (st : state (option shape)) (log : list event),
    @traverse _ R SR ops fuel self (Some (MkShape h w ch)) = Some (Ok (st, log)) /\
    well_shaped (cfg_n_filters c) h w (features_per_scale st).
Proof.
  intros Hch [u Hdry].
  pose proof (call_sim (unit_tensor R) ops self fuel tt (Some (MkShape h w ch)))
    as Hsim.
  rewrite Hdry in Hsim.
  destruct (@call _ R SR ops fuel self (Some (MkShape h w ch))) as [r|] eqn:Hcall;
    [|contradiction].
  inversion Hsim as [u' out _ Hu Hr|]; subst r.
  destruct (call_shape fuel ch out Hch Hcall) as (-> & Hrest).
  split; [reflexivity|exact Hrest].
Qed.
End ShapeInvariant.

Lemma default_dry_run_returns {R : Type} {SR : Scalar R} (b : R) :
  dry_run_returns (default_config b) 55.
Proof. exists tt. vm_compute. reflexivity. Qed.



(** ** Malformed configurations *)


(** * Further properties *)

(** ** residual_weights_computation: every step, and how steps relate *)

Section ResidualWeightsMore.
Context {R : Type} `{Scalar R}.

(** The factor used at an iteration depends on the number of the iteration
    only, not on the step [t]. *)
Lemma weights_after_any_step (t t' : Z) (beta : R) (n : nat) :
  weights_after t beta n = weights_after t' beta n.
Proof.
  induction n as [|n IH].
  - unfold weights_after, py_range_down.
    replace (Z.to_nat (t - 1 - (t - 1 - Z.of_nat 0))) with 0%nat by lia.
    replace (Z.to_nat (t' - 1 - (t' - 1 - Z.of_nat 0))) with 0%nat by lia.
    reflexivity.
  - rewrite !weights_after_S, IH. unfold weights_step, decay.
    do 6 f_equal. lia.
Qed.

Lemma hd_reverse_last (l : list R) (d : R) :
  l <> [] -> hd_error (reverse l) = Some (List.last l d).
Proof.
  destruct l as [|x l] using rev_ind; [congruence|]. intros _.
  rewrite reverse_app, last_last. reflexivity.
Qed.

Lemma rwc_length (t : Z) (beta : R) :
  length (residual_weights_computation t beta) = Z.to_nat (Z.max t 1).
Proof.
  destruct (Z.le_gt_cases t 1) as [Hle|Hgt].
  - rewrite rwc_small by exact Hle.
    replace (Z.to_nat (Z.max t 1)) with 1%nat by lia. reflexivity.
  - rewrite rwc_unfold, length_reverse, weights_after_length. lia.
Qed.

(** X1: whatever the step is (zero and negative steps included), the result is
    never empty: it has max(t, 1) entries and its last entry is [beta]. *)
Theorem residual_weights_never_empty (t : Z) (beta : R) :
  length (residual_weights_computation t beta) = Z.to_nat (Z.max t 1) /\
  residual_weights_computation t beta <> [] /\
  py_index (residual_weights_computation t beta) (-1) = Some beta.
Proof.
  pose proof (rwc_length t beta) as Hl.
  split; [exact Hl|]. split.
  - intros E. rewrite E in Hl. cbn in Hl. lia.
  - destruct (Z.le_gt_cases t 1) as [Hle|Hgt].
    + rewrite rwc_small by exact Hle. reflexivity.
    + destruct (py_index_last (residual_weights_computation t beta)) as [-> _].
      rewrite Hl, rwc_lookup by lia.
      replace (Z.to_nat t - 1 - (Z.to_nat (Z.max t 1) - 1))%nat with 0%nat by lia.
      apply weights_after_first.
Qed.

Lemma rwc_extend (t : Z) (beta : R) :
  1 <= t ->
  exists w_oldest : R,
    hd_error (residual_weights_computation t beta) = Some w_oldest /\
    residual_weights_computation (t + 1) beta
    = smul (decay (t + 1) beta 1) w_oldest :: residual_weights_computation t beta.
Proof.
  intros Ht. rewrite !rwc_unfold.
  replace (Z.to_nat (t + 1 - 1)) with (S (Z.to_nat (t - 1))) by lia.
  rewrite weights_after_S.
  rewrite (weights_after_any_step (t + 1) t).
  set (u := weights_after t beta (Z.to_nat (t - 1))).
  pose proof (weights_after_length t beta (Z.to_nat (t - 1))) as Hlen.
  fold u in Hlen.
  exists (List.last u beta). split.
  - apply hd_reverse_last. intros E. rewrite E in Hlen. discriminate.
  - unfold weights_step. rewrite reverse_app. cbn [reverse rev_append app].
    do 3 f_equal. lia.
Qed.

Lemma rwc_suffix (t : Z) (beta : R) (d : nat) :
  1 <= t ->
  residual_weights_computation t beta
    `suffix_of` residual_weights_computation (t + Z.of_nat d) beta.
Proof.
  intros Ht. induction d as [|d IH].
  - replace (t + Z.of_nat 0) with t by lia. reflexivity.
  - replace (t + Z.of_nat (S d)) with (t + Z.of_nat d + 1) by lia.
    destruct (rwc_extend (t + Z.of_nat d) beta ltac:(lia)) as (x & _ & ->).
    apply suffix_cons_r. exact IH.
Qed.

(** X2: the weight of a feature depends only on how far back the feature is:
    the weights of step [t + 1] are those of step [t] with one more weight in
    front, for the new oldest feature; so the weights of a step are a suffix
    of the weights of every later step. *)
Theorem residual_weights_extend (t : Z) (beta : R) (d : nat) (Ht : 1 <= t) :
  (exists w_oldest : R,
     hd_error (residual_weights_computation t beta) = Some w_oldest /\
     residual_weights_computation (t + 1) beta
     = smul (decay (t + 1) beta 1) w_oldest :: residual_weights_computation t beta) /\
  residual_weights_computation t beta
    `suffix_of` residual_weights_computation (t + Z.of_nat d) beta.
Proof.
  split; [apply rwc_extend; exact Ht|apply rwc_suffix; exact Ht].
Qed.
End ResidualWeightsMore.

Lemma residual_weights_extend_witness :
  1 <= 2 /\
  residual_weights_computation 2 (1 # 5)%Q
    `suffix_of` residual_weights_computation (2 + Z.of_nat 3) (1 # 5)%Q.
Proof.
  split; [lia|].
  exact (proj2 (residual_weights_extend 2 (1 # 5)%Q 3 ltac:(lia))).
Defined.

(** ** residual_weights_computation on the rationals *)

Lemma decay_between (t k : Z) (beta : Q) :
  (0 < beta)%Q -> (beta < 1)%Q -> 2 <= t - k + 1 ->
  (0 < decay t beta k)%Q /\ (decay t beta k < 1)%Q.
Proof.
  intros Hpos Hlt Hd. unfold decay. cbn [of_int sadd ssub sdiv Q_scalar].
  assert (Hd2 : (inject_Z 2 <= inject_Z (t - k + 1))%Q)
    by (rewrite <- Zle_Qle; exact Hd).
  change (inject_Z 2) with 2%Q in Hd2. change (inject_Z 1) with 1%Q.
  set (d := inject_Z (t - k + 1)) in *.
  assert (Hq0 : (0 < (1 + beta) / d)%Q) by (apply Qlt_shift_div_l; lra).
  assert (Hq1 : ((1 + beta) / d < 1)%Q) by (apply Qlt_shift_div_r; lra).
  split; lra.
Qed.

Lemma weights_after_range (t : Z) (beta : Q) (n : nat) :
  (0 < beta)%Q -> (beta < 1)%Q -> Z.of_nat n <= t - 1 ->
  Forall (weight_in_range beta) (weights_after t beta n) /\
  weight_in_range beta (List.last (weights_after t beta n) beta).
Proof.
  intros Hpos Hlt. induction n as [|n IH]; intros Hn.
  - unfold weights_after, py_range_down.
    replace (Z.to_nat (t - 1 - (t - 1 - Z.of_nat 0))) with 0%nat by lia.
    cbn. unfold weight_in_range. split; [constructor; [|constructor]|]; lra.
  - destruct IH as [IHall IHlast]; [lia|].
    rewrite weights_after_S. unfold weights_step.
    set (u := weights_after t beta n) in *.
    destruct (decay_between t (t - 1 - Z.of_nat n) beta Hpos Hlt ltac:(lia))
      as [Hd0 Hd1].
    set (dk := decay t beta (t - 1 - Z.of_nat n)) in *.
    destruct IHlast as [Hl0 Hl1].
    assert (Hnew : weight_in_range beta (smul dk (List.last u beta))).
    { cbn [smul Q_scalar]. split.
      - apply Qmult_lt_0_compat; assumption.
      - apply Qle_trans with (List.last u beta); [|exact Hl1].
        rewrite <- (Qmult_1_l (List.last u beta)) at 2.
        apply Qmult_le_compat_r; lra. }
    split.
    + apply Forall_app. split; [exact IHall|]. constructor; [exact Hnew|constructor].
    + rewrite last_last. exact Hnew.
Qed.

(** X3: with 0 < beta < 1 every weight lies in (0, beta], whatever the step,
    and every weight is strictly smaller than the weight of the next, more
    recent, feature. *)
Theorem residual_weights_decay (t : Z) (beta : Q)
    (Hpos : (0 < beta)%Q) (Hlt : (beta < 1)%Q) :
  Forall (weight_in_range beta) (residual_weights_computation t beta) /\
  forall (i : nat) (x y : Q),
    residual_weights_computation t beta !! i = Some x ->
    residual_weights_computation t beta !! S i = Some y ->
    (x < y)%Q.
Proof.
  split.
  - rewrite rwc_unfold. apply Forall_reverse.
    destruct (Z.le_gt_cases 1 t).
    + apply weights_after_range; [assumption..|lia].
    + replace (Z.to_nat (t - 1)) with 0%nat by lia.
      rewrite (weights_after_any_step t 1).
      apply weights_after_range; [assumption..|lia].
  - intros i x y Hx Hy.
    assert (Hi : (S i < length (residual_weights_computation t beta))%nat)
      by (eapply lookup_lt_Some; exact Hy).
    rewrite rwc_length in Hi.
    assert (Ht : 2 <= t) by lia.
    rewrite rwc_lookup in Hx, Hy by lia.
    destruct (weights_after_step t beta (Z.to_nat (t - 1)) (Z.to_nat t - 1 - i)%nat)
      as (x' & Hx' & Hy'); [lia|].
    replace (Z.to_nat t - 1 - i - 1)%nat with (Z.to_nat t - 1 - S i)%nat in Hx' by lia.
    rewrite Hx' in Hy. injection Hy as ->.
    rewrite Hy' in Hx. injection Hx as <-.
    destruct (weights_after_range t beta (Z.to_nat (t - 1)) Hpos Hlt ltac:(lia))
      as [Hall _].
    rewrite Forall_lookup in Hall. destruct (Hall _ _ Hx') as [Hy0 _].
    destruct (decay_between t (t - Z.of_nat (Z.to_nat t - 1 - i)) beta Hpos Hlt
                ltac:(lia)) as [_ Hd1].
    cbn [smul Q_scalar].
    rewrite <- (Qmult_1_l y) at 2.
    apply Qmult_lt_compat_r; assumption.
Qed.

Lemma residual_weights_decay_witness :
  (0 < 1 # 5)%Q /\ (1 # 5 < 1)%Q /\
  Forall (weight_in_range (1 # 5)) (residual_weights_computation 4 (1 # 5)%Q).
Proof.
  assert (H0 : (0 < 1 # 5)%Q) by reflexivity.
  assert (H1 : (1 # 5 < 1)%Q) by reflexivity.
  split; [exact H0|]. split; [exact H1|].
  exact (proj1 (residual_weights_decay 4 (1 # 5)%Q H0 H1)).
Defined.

(** ** build_needs_to_compute as a dictionary *)

Lemma spec_record_all_app (g : gmap coord coord) (l k : list (coord * coord)) :
  spec_record_all g (l ++ k) = spec_record_all (spec_record_all g l) k.
Proof. unfold spec_record_all. apply fold_left_app. Qed.

Lemma spec_graph_from_records (s : Z) (table : list (list (Z * Z)))
    (g : gmap coord coord) :
  spec_graph_from s table g = spec_record_all g (records_from s table).
Proof.
  revert s g. induction table as [|pairs table IH]; intros s g;
    cbn [spec_graph_from records_from].
  - reflexivity.
  - rewrite IH, spec_record_all_app. reflexivity.
Qed.

Lemma spec_record_all_to_map (records : list (coord * coord)) :
  spec_record_all ∅ records = list_to_map (reverse records).
Proof.
  induction records as [|[k v] records IH] using rev_ind.
  - reflexivity.
  - rewrite spec_record_all_app, reverse_app, IH. reflexivity.
Qed.

Lemma build_as_list_to_map (table : list (list (Z * Z))) :
  build_needs_to_compute table ∅ = list_to_map (reverse (records_from 0 table)).
Proof.
  rewrite build_needs_to_compute_spec. unfold spec_dependency_graph.
  rewrite spec_graph_from_records. apply spec_record_all_to_map.
Qed.

Lemma spec_records_lookup (s : Z) (pairs : list (Z * Z)) (j : nat) (p : Z * Z)
    (downscale : bool) :
  pairs !! j = Some p ->
  spec_records s downscale pairs !! j
  = Some (record_of s (if downscale then j else S j) p).
Proof.
  revert j downscale. induction pairs as [|[up dn] pairs IH]; intros j d Hj.
  - discriminate.
  - destruct j as [|j].
    + injection Hj as <-. destruct d; reflexivity.
    + cbn [spec_records]. cbn in Hj. change ((?x :: ?l) !! S j) with (l !! j).
      rewrite (IH j (negb d) Hj). f_equal. unfold record_of.
      destruct d; cbn [negb]; [reflexivity|].
      rewrite Nat.even_succ_succ. reflexivity.
Qed.

Lemma spec_records_elem (s : Z) (pairs : list (Z * Z)) (downscale : bool)
    (r : coord * coord) :
  r ∈ spec_records s downscale pairs ->
  exists (j : nat) (p : Z * Z), p ∈ pairs /\ r = record_of s j p.
Proof.
  revert downscale. induction pairs as [|[up dn] pairs IH]; intros d Hr.
  - inversion Hr.
  - cbn [spec_records] in Hr. apply elem_of_cons in Hr as [->|Hr].
    + exists (if d then 0%nat else 1%nat), (up, dn). split; [left|].
      destruct d; reflexivity.
    + destruct (IH _ Hr) as (j & p & Hp & ->).
      exists j, p. split; [right; exact Hp|reflexivity].
Qed.

Lemma records_from_elem (s : Z) (table : list (list (Z * Z))) (r : coord * coord) :
  r ∈ records_from s table ->
  exists (i j : nat) (pairs : list (Z * Z)) (p : Z * Z),
    table !! i = Some pairs /\ p ∈ pairs /\ r = record_of (s + Z.of_nat i) j p.
Proof.
  revert s. induction table as [|pairs table IH]; intros s Hr.
  - inversion Hr.
  - cbn [records_from] in Hr. apply elem_of_app in Hr as [Hr|Hr].
    + destruct (spec_records_elem _ _ _ _ Hr) as (j & p & Hp & ->).
      exists 0%nat, j, pairs, p. repeat split; [exact Hp|].
      f_equal. lia.
    + destruct (IH _ Hr) as (i & j & pairs' & p & Hi & Hp & ->).
      exists (S i), j, pairs', p. repeat split; [exact Hi|exact Hp|].
      f_equal. lia.
Qed.

Lemma records_from_lookup (s : Z) (table : list (list (Z * Z))) (i j : nat)
    (pairs : list (Z * Z)) (p : Z * Z) :
  table !! i = Some pairs -> pairs !! j = Some p ->
  record_of (s + Z.of_nat i) j p ∈ records_from s table.
Proof.
  revert s i. induction table as [|pairs0 table IH]; intros s i Hi Hj.
  - discriminate.
  - cbn [records_from]. apply elem_of_app. destruct i as [|i].
    + left. injection Hi as ->.
      replace (s + Z.of_nat 0) with s by lia.
      apply (list_elem_of_lookup_2 _ j).
      exact (spec_records_lookup s pairs j p true Hj).
    + right. replace (s + Z.of_nat (S i)) with (s + 1 + Z.of_nat i) by lia.
      apply IH; assumption.
Qed.

Lemma build_entry_origin (table : list (list (Z * Z))) (a b : coord) :
  build_needs_to_compute table ∅ !! a = Some b ->
  exists (i j : nat) (pairs : list (Z * Z)) (up dn : Z),
    table !! i = Some pairs /\ (up, dn) ∈ pairs /\
    ((a = (Z.of_nat i + 1, dn) /\ b = (Z.of_nat i, up)) \/
     (a = (Z.of_nat i, up) /\ b = (Z.of_nat i + 1, dn))).
Proof.
  intros Hab. rewrite build_as_list_to_map in Hab.
  apply elem_of_list_to_map_2 in Hab. rewrite elem_of_reverse in Hab.
  destruct (records_from_elem _ _ _ Hab) as (i & j & pairs & [up dn] & Hi & Hp & Hr).
  exists i, j, pairs, up, dn. split; [exact Hi|]. split; [exact Hp|].
  unfold record_of in Hr. cbn [fst snd] in Hr.
  destruct (Nat.even j); injection Hr as -> ->; [left|right]; split; f_equal; lia.
Qed.

(** X4: every entry of the dependency mapping comes from a pair of the table
    and joins the two scales of the pair's adjacency list; nothing else is
    ever in the mapping. *)
Theorem needs_to_compute_sound (table : list (list (Z * Z))) (a b : coord)
    (Hab : build_needs_to_compute table ∅ !! a = Some b) :
  exists (i j : nat) (pairs : list (Z * Z)) (up dn : Z),
    table !! i = Some pairs /\ (up, dn) ∈ pairs /\
    ((a = (Z.of_nat i + 1, dn) /\ b = (Z.of_nat i, up)) \/
     (a = (Z.of_nat i, up) /\ b = (Z.of_nat i + 1, dn))).
Proof. exact (build_entry_origin table a b Hab). Qed.

Lemma needs_to_compute_sound_witness :
  build_needs_to_compute DEFAULT_COMMUNICATION_BETWEEN_SCALES ∅ !! (0, 4) = Some (1, 11) /\
  exists (i j : nat) (pairs : list (Z * Z)) (up dn : Z),
    DEFAULT_COMMUNICATION_BETWEEN_SCALES !! i = Some pairs /\ (up, dn) ∈ pairs /\
    (((0, 4) = (Z.of_nat i + 1, dn) /\ (1, 11) = (Z.of_nat i, up)) \/
     ((0, 4) = (Z.of_nat i, up) /\ (1, 11) = (Z.of_nat i + 1, dn))).
Proof.
  assert (Hab : build_needs_to_compute DEFAULT_COMMUNICATION_BETWEEN_SCALES ∅ !! (0, 4)
                = Some (1, 11)) by (vm_compute; reflexivity).
  split; [exact Hab|].
  exact (needs_to_compute_sound _ _ _ Hab).
Defined.

Lemma spec_record_all_untouched (g : gmap coord coord) (l : list (coord * coord))
    (a : coord) :
  a ∉ l.*1 -> spec_record_all g l !! a = g !! a.
Proof.
  revert g. induction l as [|[k v] l IH]; intros g Ha; [reflexivity|].
  cbn in Ha. apply not_elem_of_cons in Ha as [Hne Ha].
  unfold spec_record_all in *. cbn [fold_left fst snd].
  rewrite IH by exact Ha. apply lookup_insert_ne. congruence.
Qed.

(** X5: a coordinate has no entry exactly when no pair records it as receiver,
    and when several pairs record the same receiver the last one wins. *)
Theorem needs_to_compute_lookup (table : list (list (Z * Z))) :
  (forall a : coord,
     build_needs_to_compute table ∅ !! a = None
     <-> a ∉ (records_from 0 table).*1) /\
  (forall (before after : list (coord * coord)) (a b : coord),
     records_from 0 table = before ++ (a, b) :: after ->
     a ∉ after.*1 ->
     build_needs_to_compute table ∅ !! a = Some b).
Proof.
  split.
  - intros a. rewrite build_as_list_to_map, <- not_elem_of_list_to_map.
    rewrite fmap_reverse, elem_of_reverse. reflexivity.
  - intros before after a b Hrec Hlast.
    rewrite build_needs_to_compute_spec. unfold spec_dependency_graph.
    rewrite spec_graph_from_records, Hrec, spec_record_all_app.
    unfold spec_record_all at 1. cbn [fold_left fst snd].
    fold (spec_record_all (<[a:=b]> (spec_record_all ∅ before)) after).
    rewrite spec_record_all_untouched by exact Hlast.
    apply lookup_insert_eq.
Qed.

Lemma needs_to_compute_lookup_witness :
  records_from 0 [[(1, 0); (2, 5); (3, 0)]]
    = [((1, 0), (0, 1)); ((0, 2), (1, 5))] ++ ((1, 0), (0, 3)) :: [] /\
  build_needs_to_compute [[(1, 0); (2, 5); (3, 0)]] ∅ !! (1, 0) = Some (0, 3).
Proof.
  assert (Hrec : records_from 0 [[(1, 0); (2, 5); (3, 0)]]
                 = [((1, 0), (0, 1)); ((0, 2), (1, 5))] ++ ((1, 0), (0, 3)) :: [])
    by reflexivity.
  split; [exact Hrec|].
  refine (proj2 (needs_to_compute_lookup _) _ _ _ _ Hrec _).
  cbn. apply not_elem_of_nil.
Defined.

(** X6: alternation, as a round trip: when no two pairs of the table record the
    same receiver, the pair number [j] (from 0) of the adjacency list between
    scales [i] and [i + 1] is found in the mapping as
    [(i + 1, step_lower) -> (i, step_upper)] when [j] is even and as
    [(i, step_upper) -> (i + 1, step_lower)] when [j] is odd. *)
Theorem needs_to_compute_alternates (table : list (list (Z * Z))) (i j : nat)
    (pairs : list (Z * Z)) (step_upper step_lower : Z)
    (Hdistinct : NoDup (records_from 0 table).*1)
    (Hi : table !! i = Some pairs)
    (Hj : pairs !! j = Some (step_upper, step_lower)) :
  if Nat.even j
  then build_needs_to_compute table ∅ !! (Z.of_nat i + 1, step_lower)
       = Some (Z.of_nat i, step_upper)
  else build_needs_to_compute table ∅ !! (Z.of_nat i, step_upper)
       = Some (Z.of_nat i + 1, step_lower).
Proof.
  pose proof (records_from_lookup 0 table i j pairs _ Hi Hj) as Hin.
  rewrite build_as_list_to_map.
  assert (Hnd : NoDup (reverse (records_from 0 table)).*1)
    by (rewrite fmap_reverse, reverse_Permutation; exact Hdistinct).
  rewrite <- elem_of_reverse in Hin.
  unfold record_of in Hin. cbn [fst snd] in Hin.
  replace (0 + Z.of_nat i) with (Z.of_nat i) in Hin by lia.
  destruct (Nat.even j); apply elem_of_list_to_map_1; assumption.
Qed.

Lemma needs_to_compute_alternates_witness :
  NoDup (records_from 0 DEFAULT_COMMUNICATION_BETWEEN_SCALES).*1 /\
  build_needs_to_compute DEFAULT_COMMUNICATION_BETWEEN_SCALES ∅ !! (Z.of_nat 1, 4)
    = Some (Z.of_nat 1 + 1, 5).
Proof.
  assert (Hnd : NoDup (records_from 0 DEFAULT_COMMUNICATION_BETWEEN_SCALES).*1)
    by (apply (bool_decide_unpack _); vm_compute; exact I).
  split; [exact Hnd|].
  exact (needs_to_compute_alternates DEFAULT_COMMUNICATION_BETWEEN_SCALES 1 3
           _ 4 5 Hnd eq_refl eq_refl).
Defined.

(** ** The traversal on any model *)

Section AnyModel.
Context {T R : Type} `{Scalar R} `{Tensor T R}.

Lemma initial_state_Ok (self : FocNet R) (inputs : T) (st : state T) :
  initial_state self inputs = Ok st ->
  i_scale st = 0 /\ i_feature st = 0 /\
  (0 < Z.to_nat (n_scales self))%nat /\
  features_per_scale st
  = [first_conv inputs] :: replicate (Z.to_nat (n_scales self) - 1) [].
Proof.
  unfold initial_state. intros Hinit.
  apply res_bind_Ok in Hinit as (fs & Happ & [= <-]).
  apply append_at_Ok in Happ as (n & l & Hn & Hl & ->).
  pose proof (py_norm_Some _ _ _ Hn) as Hlt. rewrite length_replicate in Hlt.
  apply py_norm_nonneg_inv in Hn; [|lia]. subst n. cbn [Z.to_nat] in *.
  apply lookup_replicate in Hl as [-> _].
  repeat split; [exact Hlt|]. cbn [features_per_scale].
  destruct (Z.to_nat (n_scales self)) as [|m]; [lia|].
  cbn. replace (m - 0)%nat with m by lia. reflexivity.
Qed.

Lemma call_loop_prefix (self : FocNet R) (fuel : nat) (st st' : state T)
    (log log' : list event) :
  call_loop fuel self st log = Some (Ok (st', log')) ->
  Forall2 prefix (features_per_scale st) (features_per_scale st').
Proof.
  intros Hloop.
  destruct (call_loop_run_for self fuel st st' log log' 0 Hloop) as (st0 & [= <-] & Hp).
  exact Hp.
Qed.

(** X7: whenever a traversal returns there is one store per scale, as many as
    [n_scales] says, and the first feature of scale 0 is still the stem. *)
Theorem traversal_keeps_stem (self : FocNet R) (fuel : nat) (inputs : T)
    (st : state T) (log : list event)
    (Htr : traverse fuel self inputs = Some (Ok (st, log))) :
  1 <= n_scales self /\
  length (features_per_scale st) = Z.to_nat (n_scales self) /\
  exists rest : list T,
    features_per_scale st !! 0%nat = Some (first_conv inputs :: rest).
Proof.
  unfold traverse in Htr.
  destruct (initial_state self inputs) as [st0|e] eqn:Hinit; [|discriminate Htr].
  apply initial_state_Ok in Hinit as (_ & _ & Hpos & Hfs).
  apply call_loop_prefix in Htr. rewrite Hfs in Htr.
  split; [lia|]. split.
  - rewrite <- (Forall2_length _ _ _ Htr). cbn. rewrite length_replicate. lia.
  - inversion Htr as [|stem0 store0 ? ? [rest ->] _]; subst.
    exists rest. reflexivity.
Qed.

(** X8: with no store at all ([n_scales <= 0]) or no entry in
    [n_convs_per_scale], [call] raises IndexError at once, whatever the fuel. *)
Theorem call_raises_without_scales (self : FocNet R) (fuel : nat) (inputs : T)
    (Hbad : n_scales self <= 0 \/ n_convs_per_scale self = []) :
  call fuel self inputs = Some (Raise IndexError).
Proof.
  unfold call, traverse.
  destruct (initial_state self inputs) as [st0|[]] eqn:Hinit; [|reflexivity].
  pose proof (initial_state_Ok _ _ _ Hinit) as (Hs & Hf & Hpos & _).
  destruct Hbad as [Hn|Hn]; [lia|].
  assert (Hc : loop_condition self st0 = Raise IndexError).
  { unfold loop_condition. rewrite Hs, Hn. reflexivity. }
  destruct fuel; cbn [call_loop]; rewrite Hc; reflexivity.
Qed.
End AnyModel.

Lemma traversal_keeps_stem_witness :
  exists (st : state (list Q)) (log : list event),
    traverse 55 (default_model (1 # 5)%Q) [1%Q] = Some (Ok (st, log)) /\
    1 <= n_scales (default_model (1 # 5)%Q) /\
    length (features_per_scale st) = Z.to_nat (n_scales (default_model (1 # 5)%Q)) /\
    exists rest : list (list Q),
      features_per_scale st !! 0%nat = Some (first_conv [1%Q] :: rest).
Proof.
  destruct (default_final_state [1%Q] (1 # 5)%Q)
    as (st & s0 & s1 & s2 & s3 & Htr & _).
  exists st, default_trace. split; [exact Htr|].
  exact (traversal_keeps_stem _ 55 _ st _ Htr).
Defined.

Lemma call_raises_without_scales_witness :
  n_scales (construct (MkConfig 0 128 3 [5] [] (1 # 5)%Q)) <= 0 /\
  call 3 (construct (MkConfig 0 128 3 [5] [] (1 # 5)%Q)) [1%Q]
    = Some (Raise IndexError).
Proof.
  split; [cbn; lia|].
  apply call_raises_without_scales. left. cbn. lia.
Defined.

(** ** Invariants of the traversal, for every configuration *)

Lemma subscript_nonneg {A : Type} (l : list A) (i : Z) (x : A) :
  0 <= i -> subscript l i = Ok x -> l !! Z.to_nat i = Some x /\ i < len l.
Proof.
  intros Hi Hx. apply subscript_Ok in Hx. rewrite py_index_nonneg in Hx by exact Hi.
  split; [exact Hx|]. apply lookup_lt_Some in Hx. unfold len. lia.
Qed.

Lemma append_at_nonneg {A : Type} (ls ls' : list (list A)) (i : Z) (x : A) :
  0 <= i -> append_at ls i x = Ok ls' ->
  exists l : list A,
    ls !! Z.to_nat i = Some l /\ ls' = <[Z.to_nat i := l ++ [x]]> ls.
Proof.
  intros Hi (n & l & Hn & Hl & ->)%append_at_Ok.
  apply py_norm_nonneg_inv in Hn; [|exact Hi]. subst n. eauto.
Qed.

Lemma make_conv_blocks_lookup (n_convs : list Z) (s j : nat)
    (blocks : list block_id) (b : block_id) :
  make_conv_blocks n_convs !! s = Some blocks -> blocks !! j = Some b ->
  b = (s, j) /\ exists n : Z, n_convs !! s = Some n /\ Z.of_nat j < n.
Proof.
  unfold make_conv_blocks. rewrite list_lookup_imap.
  destruct (n_convs !! s) as [n|] eqn:Hn; [|discriminate].
  intros [= <-] Hj. rewrite list_lookup_fmap in Hj.
  destruct (seq 0 (Z.to_nat n) !! j) as [j'|] eqn:Hseq; [|discriminate].
  apply lookup_seq in Hseq as [-> Hlt]. injection Hj as <-.
  split; [reflexivity|]. exists n. split; [reflexivity|lia].
Qed.

Lemma needs_get_nonneg {R : Type} (c : config R) (s f sc fc : Z) :
  nonneg_steps (cfg_communications_between_scales c) ->
  needs_get (construct c) (s, f) = Some (sc, fc) ->
  0 <= s /\ 0 <= f /\ 0 <= sc /\ 0 <= fc /\ (sc = s + 1 \/ s = sc + 1).
Proof.
  intros Hnn Hget. unfold needs_get in Hget. cbn [construct needs_to_compute] in Hget.
  apply build_entry_origin in Hget as (i & j & pairs & up & dn & Hi & Hp & Hab).
  unfold nonneg_steps in Hnn. rewrite Forall_lookup in Hnn.
  pose proof (Hnn _ _ Hi) as Hpairs. rewrite Forall_forall in Hpairs.
  destruct (Hpairs _ Hp) as [Hup Hdn]. cbn [fst snd] in Hup, Hdn.
  destruct Hab as [[[= -> ->] [= -> ->]]|[[= -> ->] [= -> ->]]]; lia.
Qed.

Section RunInvariant.
Context {T R : Type} `{Scalar R} `{Tensor T R}.
Variable c : config R.
Hypothesis Hnn : nonneg_steps (cfg_communications_between_scales c).

Local Abbreviation self := (construct c).

(** After the overflow check the scale is not negative, and the step is the
    resume index of its store or, after a pop, the last index. *)
Lemma overflow_position (st : state T) (i_s i_f : Z) :
  position_ok st ->
  loop_condition self st = Ok true ->
  overflow_check self st = Ok (i_s, i_f) ->
  0 <= i_s /\
  forall store : list T,
    features_per_scale st !! Z.to_nat i_s = Some store ->
    i_f = Z.max (len store - 1) 0 \/ i_f = len store - 1.
Proof.
  intros [Hs Hpos] Hcond Hov. unfold overflow_check in Hov.
  apply res_bind_Ok in Hov as (n_here & Hn & Hov).
  destruct (Z.leb_spec n_here (i_feature st)) as [Hle|Hgt].
  - apply res_bind_Ok in Hov as (store' & Hst & [= <- <-]).
    assert (Hne : i_scale st <> 0).
    { intros Hz. unfold loop_condition in Hcond. rewrite Hz in Hcond, Hn.
      cbn [Z.eqb negb] in Hcond. rewrite Hn in Hcond. cbn in Hcond.
      injection Hcond as Hcond. apply Z.ltb_lt in Hcond. lia. }
    split; [lia|]. intros store Hstore.
    apply subscript_nonneg in Hst as [Hst _]; [|lia].
    rewrite Hst in Hstore. injection Hstore as <-. right. reflexivity.
  - injection Hov as <- <-. split; [exact Hs|].
    intros store Hstore. left. apply Hpos. exact Hstore.
Qed.

(** The input of a block: the store of the scale, after a possible seeding,
    is not empty and the step is its last index. *)
Lemma input_feature_position (fs fs_mid : list (list T)) (i_s i_f : Z)
    (feature : T) (dep : option (coord * nat)) :
  0 <= i_s ->
  (forall store : list T, fs !! Z.to_nat i_s = Some store ->
     i_f = Z.max (len store - 1) 0 \/ i_f = len store - 1) ->
  input_feature self fs i_s i_f fs_mid feature dep ->
  exists store_pre store_mid : list T,
    fs !! Z.to_nat i_s = Some store_pre /\
    fs_mid = <[Z.to_nat i_s := store_mid]> fs /\
    store_pre `prefix_of` store_mid /\
    len store_mid <= Z.max (len store_pre) 1 /\
    i_f = len store_mid - 1 /\ 0 <= i_f /\
    match dep with
    | Some ((sc, fc), n) => (sc = i_s + 1 \/ i_s = sc + 1) /\ 0 <= fc < Z.of_nat n
    | None => True
    end.
Proof.
  intros Hs Hpos
    [store feature0 _ Hst Hf
    |sc fc store_c x fs0 Hneeds Hsc Hlt Hx Hst Hseed
    |sc fc store_c x store last_feature Hneeds Hsc Hlt Hx Hst Hne Hl].
  - pose proof (subscript_nonempty _ _ _ Hf) as Hne.
    apply subscript_nonneg in Hst as [Hst _]; [|exact Hs].
    exists store, store. split; [exact Hst|].
    split; [symmetry; apply list_insert_id; exact Hst|].
    split; [reflexivity|]. split; [lia|].
    assert (1 <= len store) by (destruct store; [congruence|unfold len; cbn; lia]).
    destruct (Hpos _ Hst); repeat split; try lia.
  - destruct (needs_get_nonneg c _ _ _ _ Hnn Hneeds) as (_ & Hf0 & _ & Hfc & Hadj).
    apply append_at_nonneg in Hseed as (l & Hl & ->); [|exact Hs].
    apply subscript_nonneg in Hst as [Hst _]; [|exact Hs].
    rewrite Hst in Hl. injection Hl as <-.
    exists [], [resample i_s sc x]. split; [exact Hst|].
    split; [reflexivity|]. split; [apply prefix_nil|].
    unfold len in *. cbn [length app] in *.
    destruct (Hpos _ Hst) as [Hi|Hi]; cbn [length] in Hi; repeat split; try lia.
  - destruct (needs_get_nonneg c _ _ _ _ Hnn Hneeds) as (_ & Hf0 & _ & Hfc & Hadj).
    apply subscript_nonneg in Hst as [Hst _]; [|exact Hs].
    exists store, store. split; [exact Hst|].
    split; [symmetry; apply list_insert_id; exact Hst|].
    split; [reflexivity|]. split; [lia|].
    assert (1 <= len store) by (destruct store; [congruence|unfold len; cbn; lia]).
    unfold len in *.
    destruct (Hpos _ Hst); repeat split; try lia.
Qed.

Lemma blocks_called_snoc (log : list event) (ev : event) :
  blocks_called (log ++ [ev])
  = blocks_called log ++ match ev with
                         | Computed _ b _ _ => [b]
                         | Jumped _ _ => []
                         end.
Proof.
  unfold blocks_called. rewrite omap_app. destruct ev; reflexivity.
Qed.

Lemma blocks_called_elem (log : list event) (b : block_id) :
  b ∈ blocks_called log ->
  exists (at_ : coord) (stored : nat) (dep : option (coord * nat)),
    Computed at_ b stored dep ∈ log.
Proof.
  unfold blocks_called. rewrite list_elem_of_omap.
  intros ([at_ tg|at_ b' stored dep] & Hin & Hb); [discriminate|].
  injection Hb as ->. eauto.
Qed.

(** One iteration keeps the invariant of the run. *)
Lemma step_run_invariant (st st' : state T) (log : list event) (ev : event) :
  run_invariant self st log ->
  loop_condition self st = Ok true ->
  step self st st' ev ->
  run_invariant self st' (log ++ [ev]).
Proof.
  intros (Hpos & Hbound & Hwf & Hbelow & Hnd) Hcond Hstep.
  destruct Hstep as [i_s i_f sc fc store_c Hov Hneeds Hsc Hle
                    |i_s i_f fs_mid feature dep blocks block store fs'
                       Hov Hin Hbs Hb Hs Happ].
  - destruct (overflow_position st i_s i_f Hpos Hcond Hov) as [Hs0 _].
    destruct (needs_get_nonneg c _ _ _ _ Hnn Hneeds) as (_ & Hf0 & Hsc0 & Hfc0 & Hadj).
    apply subscript_nonneg in Hsc as [Hsc _]; [|exact Hsc0].
    unfold run_invariant, position_ok, stores_bounded, log_below;
      cbn [i_scale i_feature features_per_scale].
    split; [|split; [|split; [|split]]].
    + split; [exact Hsc0|]. intros store Hstore.
      rewrite Hsc in Hstore. injection Hstore as <-. reflexivity.
    + exact Hbound.
    + apply Forall_app. split; [exact Hwf|]. constructor; [|constructor].
      cbn. repeat split; try lia.
    + intros s f b stored dep Hin. apply elem_of_app in Hin as [Hin|Hin].
      * eapply Hbelow. exact Hin.
      * apply list_elem_of_singleton in Hin. discriminate Hin.
    + rewrite blocks_called_snoc, app_nil_r. exact Hnd.
  - destruct (overflow_position st i_s i_f Hpos Hcond Hov) as [Hs0 Hposs].
    destruct (input_feature_position _ _ _ _ _ _ Hs0 Hposs Hin)
      as (store_pre & store_mid & Hpre & -> & Hprefix & Hmid & Hif & Hf0 & Hdep).
    assert (Hn : (Z.to_nat i_s < length (features_per_scale st))%nat)
      by (eapply lookup_lt_Some; exact Hpre).
    apply subscript_nonneg in Hs as [Hs _]; [|exact Hs0].
    rewrite list_lookup_insert_eq in Hs by exact Hn. injection Hs as <-.
    apply append_at_nonneg in Happ as (l & Hl & ->); [|exact Hs0].
    rewrite list_lookup_insert_eq in Hl by exact Hn. injection Hl as <-.
    rewrite list_insert_insert_eq.
    apply subscript_nonneg in Hbs as [Hbs _]; [|exact Hs0].
    apply subscript_nonneg in Hb as [Hb _]; [|exact Hf0].
    cbn [construct conv_blocks_per_scale] in Hbs.
    destruct (make_conv_blocks_lookup _ _ _ _ _ Hbs Hb) as (-> & n & Hnc & Hlt).
    assert (Hlen_pre : len store_pre <= len store_mid)
      by (unfold len; apply prefix_length in Hprefix; lia).
    unfold run_invariant, position_ok, stores_bounded, log_below;
      cbn [i_scale i_feature features_per_scale].
    split; [|split; [|split; [|split]]].
    + split; [exact Hs0|]. intros store Hstore.
      rewrite list_lookup_insert_eq in Hstore by exact Hn. injection Hstore as <-.
      unfold len in *. rewrite length_app. cbn [length]. lia.
    + intros s store n' Hstore Hn'.
      destruct (decide (s = Z.to_nat i_s)) as [->|Hne].
      * rewrite list_lookup_insert_eq in Hstore by exact Hn. injection Hstore as <-.
        cbn [construct n_convs_per_scale] in Hn'. rewrite Hnc in Hn'.
        injection Hn' as <-.
        unfold len in *. rewrite length_app. cbn [length]. lia.
      * rewrite list_lookup_insert_ne in Hstore by congruence.
        eapply Hbound; eassumption.
    + apply Forall_app. split; [exact Hwf|]. constructor; [|constructor].
      cbn [event_wf]. split; [exact Hs0|]. split; [exact Hf0|].
      split; [unfold len in Hif; lia|]. split; [reflexivity|].
      split; [exists n; split; [exact Hnc|lia]|].
      destruct dep as [[[sc fc] nd]|]; [|exact I]. exact Hdep.
    + intros s f b stored dep0 Hev. apply elem_of_app in Hev as [Hev|Hev].
      * destruct (Hbelow _ _ _ _ _ Hev) as (store0 & Hstore0 & Hf).
        destruct (decide (Z.to_nat s = Z.to_nat i_s)) as [Heq|Hne].
        -- rewrite Heq in Hstore0 |- *. rewrite Hpre in Hstore0.
           injection Hstore0 as <-.
           exists (store_mid ++ [add_residuals
                      (FocConvBlock_call (Z.to_nat i_s, Z.to_nat i_f) feature)
                      (residual_weights_computation i_f (beta self)) store_mid]).
           split; [apply list_lookup_insert_eq; exact Hn|].
           unfold len in *. rewrite length_app. cbn [length]. lia.
        -- exists store0. split; [|exact Hf].
           rewrite list_lookup_insert_ne by congruence. exact Hstore0.
      * apply list_elem_of_singleton in Hev. injection Hev as -> -> _ _ _.
        eexists. split; [apply list_lookup_insert_eq; exact Hn|].
        unfold len in *. rewrite length_app. cbn [length]. lia.
    + rewrite blocks_called_snoc. apply NoDup_app.
      split; [exact Hnd|]. split; [|apply NoDup_singleton].
      intros b Hb_in Hb_new. apply list_elem_of_singleton in Hb_new. subst b.
      apply blocks_called_elem in Hb_in as ([s' f'] & stored' & dep' & Hev).
      rewrite Forall_forall in Hwf. pose proof (Hwf _ Hev) as Hwf'.
      cbn [event_wf] in Hwf'. destruct Hwf' as (Hs' & Hf' & _ & Hblock & _).
      injection Hblock as Hbs' Hbf'.
      destruct (Hbelow _ _ _ _ _ Hev) as (store0 & Hstore0 & Hbel).
      rewrite <- Hbs' in Hstore0. rewrite Hpre in Hstore0. injection Hstore0 as <-.
      unfold len in *. lia.
Qed.

Lemma call_loop_run_invariant (fuel : nat) (st st' : state T) (log log' : list event) :
  run_invariant self st log ->
  call_loop fuel self st log = Some (Ok (st', log')) ->
  run_invariant self st' log' /\ loop_condition self st' = Ok false.
Proof.
  revert st log. induction fuel as [|fuel IH]; intros st log Hinv; cbn [call_loop].
  - destruct (loop_condition self st) as [[|]|e] eqn:Hc; try discriminate.
    intros [= <- <-]. auto.
  - destruct (loop_condition self st) as [[|]|e] eqn:Hc; try discriminate.
    + destruct (iteration self st) as [[st1 ev]|e] eqn:Hit; [|discriminate].
      apply IH. eapply step_run_invariant; [exact Hinv|exact Hc|].
      apply iteration_step. exact Hit.
    + intros [= <- <-]. auto.
Qed.

Lemma initial_run_invariant (inputs : T) (st : state T) :
  initial_state self inputs = Ok st -> run_invariant self st [].
Proof.
  intros (Hs & Hf & Hpos & Hfs)%initial_state_Ok.
  unfold run_invariant, position_ok, stores_bounded, log_below.
  rewrite Hs, Hf, Hfs. cbn [Z.to_nat].
  split; [|split; [|split; [|split]]].
  - split; [lia|]. intros store [= <-]. reflexivity.
  - intros [|s] store n Hstore _.
    + injection Hstore as <-. unfold len. cbn. lia.
    + cbn in Hstore. apply lookup_replicate in Hstore as [-> _].
      unfold len. cbn. lia.
  - constructor.
  - intros s f b stored dep Hin. inversion Hin.
  - constructor.
Qed.

Lemma traverse_run_invariant (fuel : nat) (inputs : T) (st : state T)
    (log : list event) :
  traverse fuel self inputs = Some (Ok (st, log)) ->
  run_invariant self st log /\ loop_condition self st = Ok false.
Proof.
  unfold traverse. intros Htr.
  destruct (initial_state self inputs) as [st0|e] eqn:Hinit; [|discriminate Htr].
  eapply call_loop_run_invariant; [|exact Htr].
  eapply initial_run_invariant. exact Hinit.
Qed.
End RunInvariant.

Lemma make_conv_blocks_elem (n_convs : list Z) (s j : nat) (n : Z) :
  n_convs !! s = Some n -> Z.of_nat j < n ->
  (s, j) ∈ List.concat (make_conv_blocks n_convs).
Proof.
  intros Hn Hj. apply list_elem_of_In, in_concat.
  exists (map (fun j : nat => (s, j)) (seq 0 (Z.to_nat n))). split.
  - apply list_elem_of_In. eapply list_elem_of_lookup_2 with (i := s).
    unfold make_conv_blocks. rewrite list_lookup_imap, Hn. reflexivity.
  - apply in_map, in_seq. lia.
Qed.

Lemma default_nonneg_steps : nonneg_steps DEFAULT_COMMUNICATION_BETWEEN_SCALES.
Proof.
  unfold nonneg_steps, DEFAULT_COMMUNICATION_BETWEEN_SCALES.
  repeat (apply Forall_cons_2 || apply Forall_nil_2); cbn; lia.
Qed.

Section RunTheorems.
Context {T R : Type} `{Scalar R} `{Tensor T R}.
Variable c : config R.

(** X9: for every configuration without negative step indices, every event of
    a traversal that returns is well formed: a block is called at its own,
    non-negative coordinate, inside the configured steps of its scale, when
    its store holds exactly [step + 1] features; a dependency is read inside
    its store; jumps and dependencies join adjacent scales. *)
Theorem traversal_events_well_formed (fuel : nat) (inputs : T) (st : state T)
    (log : list event)
    (Hnn : nonneg_steps (cfg_communications_between_scales c))
    (Htr : traverse fuel (construct c) inputs = Some (Ok (st, log))) :
  Forall (event_wf (cfg_n_convs_per_scale c)) log.
Proof.
  destruct (traverse_run_invariant c Hnn fuel inputs st log Htr)
    as [(_ & _ & Hwf & _) _].
  exact Hwf.
Qed.

(** X10: for every configuration without negative step indices, a traversal
    that returns has called no block twice, has called only blocks that
    exist, and so has made at most as many block calls as there are blocks. *)
Theorem traversal_calls_blocks_at_most_once (fuel : nat) (inputs : T)
    (st : state T) (log : list event)
    (Hnn : nonneg_steps (cfg_communications_between_scales c))
    (Htr : traverse fuel (construct c) inputs = Some (Ok (st, log))) :
  NoDup (blocks_called log) /\
  blocks_called log ⊆ List.concat (conv_blocks_per_scale (construct c)) /\
  (length (blocks_called log)
   <= length (List.concat (conv_blocks_per_scale (construct c))))%nat.
Proof.
  destruct (traverse_run_invariant c Hnn fuel inputs st log Htr)
    as [(_ & _ & Hwf & _ & Hnd) _].
  assert (Hsub : blocks_called log
                 ⊆ List.concat (conv_blocks_per_scale (construct c))).
  { intros b Hb. apply blocks_called_elem in Hb as ([s f] & stored & dep & Hev).
    rewrite Forall_forall in Hwf. pose proof (Hwf _ Hev) as Hev_wf.
    cbn [event_wf] in Hev_wf.
    destruct Hev_wf as (_ & Hf & _ & -> & (n & Hn & Hlt) & _).
    cbn [construct conv_blocks_per_scale].
    eapply make_conv_blocks_elem; [exact Hn|lia]. }
  split; [exact Hnd|]. split; [exact Hsub|].
  apply submseteq_length, NoDup_submseteq; assumption.
Qed.

(** X11: for every configuration without negative step indices and with
    [n_convs_per_scale[0] >= 0], when the traversal returns it stands at
    scale 0, the store of scale 0 holds exactly [n_convs_per_scale[0] + 1]
    features, the feature at index [n_convs_per_scale[0]] is the last one,
    and the final projection cannot fail: [call] returns the final
    convolution of that feature. *)
Theorem traversal_final_store (fuel : nat) (inputs : T) (st : state T)
    (log : list event) (n0 : Z)
    (Hnn : nonneg_steps (cfg_communications_between_scales c))
    (Hn0 : cfg_n_convs_per_scale c !! 0%nat = Some n0)
    (Hpos : 0 <= n0)
    (Htr : traverse fuel (construct c) inputs = Some (Ok (st, log))) :
  i_scale st = 0 /\ i_feature st = n0 /\
  exists (store0 : list T) (x : T),
    features_per_scale st !! 0%nat = Some store0 /\
    len store0 = n0 + 1 /\
    subscript store0 n0 = Ok x /\
    subscript store0 (-1) = Ok x /\
    call fuel (construct c) inputs = Some (Ok (final_conv x)).
Proof.
  destruct (traverse_run_invariant c Hnn fuel inputs st log Htr)
    as [([_ Hposn] & Hbound & _) Hend].
  assert (Hsub0 : subscript (n_convs_per_scale (construct c)) 0 = Ok n0).
  { apply subscript_Ok. rewrite py_index_nonneg by lia. exact Hn0. }
  unfold loop_condition in Hend.
  destruct (Z.eqb_spec (i_scale st) 0) as [Hs|Hs]; [|discriminate Hend].
  cbn [negb] in Hend. rewrite Hsub0 in Hend. cbn in Hend.
  injection Hend as Hend. apply Z.ltb_ge in Hend.
  assert (Hstore : exists store0, features_per_scale st !! 0%nat = Some store0
                                  /\ 1 <= len store0).
  { pose proof Htr as Htr'. unfold traverse in Htr'.
    destruct (initial_state (construct c) inputs) as [st0|e] eqn:Hinit;
      [|discriminate Htr'].
    apply initial_state_Ok in Hinit as (_ & _ & _ & Hfs).
    apply call_loop_prefix in Htr'. rewrite Hfs in Htr'.
    inversion Htr' as [|stem0 store0 ? ? [rest ->] _]; subst.
    eexists. split; [reflexivity|]. unfold len. cbn. lia. }
  destruct Hstore as (store0 & Hstore0 & Hlen1).
  rewrite Hs in Hposn. cbn [Z.to_nat] in Hposn.
  pose proof (Hposn _ Hstore0) as Hif.
  pose proof (Hbound 0%nat store0 n0 Hstore0 Hn0) as Hle.
  assert (Hlen : len store0 = n0 + 1) by lia.
  assert (Hx : exists x, store0 !! Z.to_nat n0 = Some x).
  { apply lookup_lt_is_Some_2. unfold len in Hlen. lia. }
  destruct Hx as [x Hx].
  assert (Hsx : subscript store0 n0 = Ok x).
  { apply subscript_Ok. rewrite py_index_nonneg by lia. exact Hx. }
  split; [exact Hs|]. split; [lia|].
  exists store0, x. split; [exact Hstore0|]. split; [exact Hlen|].
  split; [exact Hsx|]. split.
  - apply subscript_Ok. destruct (py_index_last store0) as [-> _].
    rewrite <- Hx. f_equal. unfold len in Hlen. lia.
  - unfold call. rewrite Htr. unfold final_projection.
    assert (Hs0 : subscript (features_per_scale st) 0 = Ok store0).
    { apply subscript_Ok. rewrite py_index_nonneg by lia. exact Hstore0. }
    rewrite Hs0. res_simpl. rewrite Hsub0. res_simpl. rewrite Hsx. reflexivity.
Qed.
End RunTheorems.

Lemma traversal_events_well_formed_witness :
  nonneg_steps (cfg_communications_between_scales (default_config (1 # 5)%Q)) /\
  exists (st : state (list Q)) (log : list event),
    traverse 55 (construct (default_config (1 # 5)%Q)) [1%Q] = Some (Ok (st, log)) /\
    Forall (event_wf (cfg_n_convs_per_scale (default_config (1 # 5)%Q))) log.
Proof.
  split; [exact default_nonneg_steps|].
  destruct (default_final_state [1%Q] (1 # 5)%Q)
    as (st & s0 & s1 & s2 & s3 & Htr & _).
  exists st, default_trace. split; [exact Htr|].
  exact (traversal_events_well_formed (default_config (1 # 5)%Q) 55 [1%Q] st _
           default_nonneg_steps Htr).
Defined.

Lemma traversal_calls_blocks_at_most_once_witness :
  nonneg_steps (cfg_communications_between_scales (default_config (1 # 5)%Q)) /\
  exists (st : state (list Q)) (log : list event),
    traverse 55 (construct (default_config (1 # 5)%Q)) [1%Q] = Some (Ok (st, log)) /\
    NoDup (blocks_called log).
Proof.
  split; [exact default_nonneg_steps|].
  destruct (default_final_state [1%Q] (1 # 5)%Q)
    as (st & s0 & s1 & s2 & s3 & Htr & _).
  exists st, default_trace. split; [exact Htr|].
  exact (proj1 (traversal_calls_blocks_at_most_once (default_config (1 # 5)%Q)
                  55 [1%Q] st _ default_nonneg_steps Htr)).
Defined.

Lemma traversal_final_store_witness :
  nonneg_steps (cfg_communications_between_scales (default_config (1 # 5)%Q)) /\
  cfg_n_convs_per_scale (default_config (1 # 5)%Q) !! 0%nat = Some 5 /\
  0 <= 5 /\
  exists (st : state (list Q)) (log : list event),
    traverse 55 (construct (default_config (1 # 5)%Q)) [1%Q] = Some (Ok (st, log)) /\
    i_scale st = 0 /\ i_feature st = 5.
Proof.
  split; [exact default_nonneg_steps|]. split; [reflexivity|]. split; [lia|].
  destruct (default_final_state [1%Q] (1 # 5)%Q)
    as (st & s0 & s1 & s2 & s3 & Htr & _).
  exists st, default_trace. split; [exact Htr|].
  destruct (traversal_final_store (default_config (1 # 5)%Q) 55 [1%Q] st _ 5
              default_nonneg_steps eq_refl ltac:(lia) Htr) as (Hs & Hf & _).
  split; [exact Hs|exact Hf].
Defined.

(** ** The traversal is independent of the data *)

Lemma same_lengths_map {A B : Type} (ls : list (list A)) (ks : list (list B)) :
  same_lengths ls ks -> map length ls = map length ks.
Proof.
  induction 1 as [|l k ls ks Hlk _ IH]; [reflexivity|].
  cbn. rewrite Hlk, IH. reflexivity.
Qed.


(** ** A model without communication is a chain at scale 0 *)

Lemma subscript_of_nat {A : Type} (l : list A) (j : nat) (x : A) :
  l !! j = Some x -> subscript l (Z.of_nat j) = Ok x.
Proof.
  intros Hj. apply subscript_Ok. rewrite py_index_nonneg by lia.
  rewrite Nat2Z.id. exact Hj.
Qed.

Lemma subscript_last {A : Type} (l : list A) (d : A) :
  l <> [] -> subscript l (-1) = Ok (List.last l d).
Proof.
  intros Hne. apply subscript_Ok. destruct (py_index_last l) as [-> _].
  destruct l as [|x l] using rev_ind; [congruence|].
  rewrite last_last, length_app. cbn [length].
  replace (length l + 1 - 1)%nat with (length l) by lia.
  rewrite lookup_app_r by lia. rewrite Nat.sub_diag. reflexivity.
Qed.

Section Chain.
Context {T R : Type} `{Scalar R} `{Tensor T R}.
Variable c : config R.
Variable inputs : T.
Variable n0 : Z.
Variable more : list Z.
Hypothesis Hcomm : cfg_communications_between_scales c = [].
Hypothesis Hconvs : cfg_n_convs_per_scale c = n0 :: more.

Local Abbreviation self := (construct c).
Local Abbreviation store_after := (chain_store (cfg_beta c) inputs).

Lemma chain_store_length (j : nat) : length (store_after j) = S j.
Proof.
  induction j as [|j IH]; [reflexivity|].
  cbn [chain_store]. rewrite length_app, IH. cbn. lia.
Qed.

Lemma chain_iteration (j : nat) (others : list (list T)) :
  Z.of_nat j < n0 ->
  iteration self (MkState 0 (Z.of_nat j) (store_after j :: others))
  = Ok (MkState 0 (Z.of_nat (S j)) (store_after (S j) :: others),
        Computed (0, Z.of_nat j) (0%nat, j) (S j) None).
Proof.
  intros Hj. unfold iteration, overflow_check.
  cbn [i_scale i_feature features_per_scale construct n_convs_per_scale].
  rewrite Hconvs. change (subscript (n0 :: more) 0) with (Ok n0). res_simpl.
  destruct (Z.leb_spec n0 (Z.of_nat j)) as [Hle|_]; [lia|]. res_simpl.
  unfold needs_get. cbn [needs_to_compute construct]. rewrite Hcomm.
  change (build_needs_to_compute [] ∅) with (∅ : gmap coord coord).
  rewrite lookup_empty.
  change (subscript (store_after j :: others) 0) with (Ok (store_after j)).
  res_simpl.
  assert (Hne : store_after j <> []).
  { intros E. pose proof (chain_store_length j) as Hl. rewrite E in Hl. discriminate. }
  rewrite (subscript_last _ (first_conv inputs) Hne). res_simpl.
  unfold compute_feature. cbn [conv_blocks_per_scale construct]. rewrite Hconvs.
  change (subscript (make_conv_blocks (n0 :: more)) 0)
    with (Ok (map (fun j : nat => (0%nat, j)) (seq 0 (Z.to_nat n0)))).
  res_simpl.
  rewrite (subscript_of_nat _ j (0%nat, j)).
  2:{ rewrite list_lookup_fmap, lookup_seq_lt by lia. reflexivity. }
  res_simpl.
  change (subscript (store_after j :: others) 0) with (Ok (store_after j)).
  res_simpl.
  change (append_at (store_after j :: others) 0 ?x)
    with (Ok ((store_after j ++ [x]) :: others)).
  res_simpl. rewrite chain_store_length.
  cbn [chain_store beta construct]. do 3 f_equal. lia.
Qed.

Lemma chain_loop (k j : nat) (others : list (list T)) :
  Z.of_nat (j + k) = n0 ->
  call_loop k self (MkState 0 (Z.of_nat j) (store_after j :: others)) (chain_log j)
  = Some (Ok (MkState 0 n0 (store_after (j + k) :: others), chain_log (j + k))).
Proof.
  revert j. induction k as [|k IH]; intros j Hjk.
  - assert (Hc : loop_condition self (MkState 0 (Z.of_nat j) (store_after j :: others))
                 = Ok false).
    { unfold loop_condition. cbn [i_scale i_feature Z.eqb negb n_convs_per_scale construct].
      rewrite Hconvs. change (subscript (n0 :: more) 0) with (Ok n0). res_simpl.
      destruct (Z.ltb_spec (Z.of_nat j) n0); [lia|reflexivity]. }
    cbn [call_loop]. rewrite Hc, Nat.add_0_r.
    replace (Z.of_nat j) with n0 by lia. reflexivity.
  - assert (Hc : loop_condition self (MkState 0 (Z.of_nat j) (store_after j :: others))
                 = Ok true).
    { unfold loop_condition. cbn [i_scale i_feature Z.eqb negb n_convs_per_scale construct].
      rewrite Hconvs. change (subscript (n0 :: more) 0) with (Ok n0). res_simpl.
      destruct (Z.ltb_spec (Z.of_nat j) n0); [reflexivity|lia]. }
    cbn [call_loop]. rewrite Hc, chain_iteration by lia.
    replace (chain_log j ++ [Computed (0, Z.of_nat j) (0%nat, j) (S j) None])
      with (chain_log (S j))
      by (unfold chain_log; rewrite seq_S, map_app; reflexivity).
    rewrite (IH (S j)) by lia.
    replace (S j + k)%nat with (j + S k)%nat by lia. reflexivity.
Qed.

(** X13: with no communication between scales the forward pass is a chain at
    scale 0: it runs exactly [n_convs_per_scale[0]] iterations, calls the
    blocks (0, 0), (0, 1), ... in order, never visits another scale, and
    returns the final convolution of the last feature of the chain. *)
Theorem no_communication_is_chain
    (Hscales : 1 <= cfg_n_scales c) (Hn0 : 0 <= n0) :
  traverse (Z.to_nat n0) self inputs
  = Some (Ok (MkState 0 n0
                (store_after (Z.to_nat n0)
                   :: replicate (Z.to_nat (cfg_n_scales c) - 1) []),
              chain_log (Z.to_nat n0))) /\
  call (Z.to_nat n0) self inputs
  = Some (Ok (final_conv (List.last (store_after (Z.to_nat n0)) (first_conv inputs)))).
Proof.
  assert (Hinit : initial_state self inputs
                  = Ok (MkState 0 0 (store_after 0
                          :: replicate (Z.to_nat (cfg_n_scales c) - 1) []))).
  { unfold initial_state. cbn [n_scales construct].
    destruct (Z.to_nat (cfg_n_scales c)) as [|m] eqn:Hm; [lia|].
    cbn. replace (m - 0)%nat with m by lia. reflexivity. }
  assert (Htr : traverse (Z.to_nat n0) self inputs
                = Some (Ok (MkState 0 n0
                              (store_after (Z.to_nat n0)
                                 :: replicate (Z.to_nat (cfg_n_scales c) - 1) []),
                            chain_log (Z.to_nat n0)))).
  { unfold traverse. rewrite Hinit. cbv iota.
    exact (chain_loop (Z.to_nat n0) 0 _ ltac:(lia)). }
  split; [exact Htr|].
  unfold call. rewrite Htr. unfold final_projection.
  cbn [features_per_scale n_convs_per_scale construct].
  change (subscript (?s :: ?o) 0) with (Ok s). res_simpl.
  rewrite Hconvs. change (subscript (n0 :: more) 0) with (Ok n0). res_simpl.
  assert (Hlast : subscript (store_after (Z.to_nat n0)) n0
                  = Ok (List.last (store_after (Z.to_nat n0)) (first_conv inputs))).
  { pose proof (chain_store_length (Z.to_nat n0)) as Hlen.
    assert (Hne : store_after (Z.to_nat n0) <> [])
      by (intros E; rewrite E in Hlen; discriminate).
    rewrite <- (subscript_last _ (first_conv inputs) Hne).
    unfold subscript.
    rewrite (proj2 (py_index_last (store_after (Z.to_nat n0))) Hne).
    unfold len. rewrite Hlen.
    replace (Z.of_nat (S (Z.to_nat n0)) - 1) with n0 by lia. reflexivity. }
  rewrite Hlast. reflexivity.
Qed.
End Chain.

Lemma no_communication_is_chain_witness :
  cfg_communications_between_scales (MkConfig 1 128 3 [2] [] (1 # 5)%Q) = [] /\
  1 <= 1 /\ 0 <= 2 /\
  traverse 2 (construct (MkConfig 1 128 3 [2] [] (1 # 5)%Q)) [1%Q]
  = Some (Ok (MkState 0 2 (chain_store (1 # 5)%Q [1%Q] 2 :: replicate (1 - 1) []),
              chain_log 2)).
Proof.
  split; [reflexivity|]. split; [lia|]. split; [lia|].
  exact (proj1 (no_communication_is_chain (MkConfig 1 128 3 [2] [] (1 # 5)%Q)
                  [1%Q] 2 [] eq_refl eq_refl ltac:(cbn; lia) ltac:(lia))).
Defined.

(** ** Stored features are never changed *)

(** X14: on any model and any tensor algebra, when a traversal returns, the
    state after any number of iterations exists and each of its stores is a
    prefix of the final store of the same scale: a feature, once stored, is
    never changed, removed or recomputed. *)
Theorem traversal_append_only (T R : Type) (SR : Scalar R) (TR : Tensor T R)
    (self : FocNet R) (fuel : nat) (inputs : T) (st : state T) (log : list event)
    (k : nat)
    (Htr : traverse fuel self inputs = Some (Ok (st, log))) :
  exists st0 stk : state T,
    initial_state self inputs = Ok st0 /\
    run_for k self st0 = Ok stk /\
    Forall2 prefix (features_per_scale st0) (features_per_scale stk) /\
    Forall2 prefix (features_per_scale stk) (features_per_scale st).
Proof.
  unfold traverse in Htr.
  destruct (initial_state self inputs) as [st0|e] eqn:Hinit; [|discriminate Htr].
  destruct (call_loop_run_for self fuel st0 st [] log k Htr) as (stk & Hk & Hp).
  exists st0, stk. repeat split; try assumption.
  eapply run_for_prefix. exact Hk.
Qed.

Lemma traversal_append_only_witness :
  exists (st : state (list Q)) (log : list event) (st0 stk : state (list Q)),
    traverse 55 (default_model (1 # 5)%Q) [1%Q] = Some (Ok (st, log)) /\
    initial_state (default_model (1 # 5)%Q) [1%Q] = Ok st0 /\
    run_for 7 (default_model (1 # 5)%Q) st0 = Ok stk /\
    Forall2 prefix (features_per_scale stk) (features_per_scale st).
Proof.
  destruct (default_final_state [1%Q] (1 # 5)%Q)
    as (st & s0 & s1 & s2 & s3 & Htr & _).
  destruct (traversal_append_only _ _ _ _ _ 55 [1%Q] st default_trace 7 Htr)
    as (st0 & stk & Hinit & Hk & _ & Hp).
  exists st, default_trace, st0, stk. auto.
Defined.
